(** * The Spotify "now playing" service (src/lib/services/spotify.ts)

    A shallow embedding of the service layer of the widget: the token
    refresh, the primary and the fallback lookup, the normalisation of a
    track and the in-memory cache, followed by the properties the
    specification states about them.

    The service reads whatever JSON the upstream sends, so values are
    modelled as untyped JavaScript values with the language's own rules for
    property access, truthiness, optional chaining and string conversion.
    Thrown errors are explicit ([Throw]); the module state (the cache slot),
    the clock, the requests sent and the console are threaded through an
    explicit state.  Calls are modelled one at a time: the interleaving of
    overlapping asynchronous calls and requests that never settle are
    outside the model. *)

From Stdlib Require Import ZArith List String Ascii Bool Lia DecimalString.
Import ListNotations.
Open Scope string_scope.
Open Scope Z_scope.

Set Implicit Arguments.
Set Warnings "-register-all".

(** ** JavaScript values and thrown errors *)

(** The values [JSON.parse] can produce, and [undefined].  Numbers are
    modelled as integers: the service only tests them for zero, compares a
    length with zero and prints them. *)
Inductive JsVal : Type :=
| JUndefined
| JNull
| JBool (b : bool)
| JNum (n : Z)
| JStr (s : string)
| JArr (elems : list JsVal)
| JObj (props : list (string * JsVal)).

Inductive Exn : Type :=
| Error (message : string)
| TypeError
| SyntaxError
| Failure (reason : string).

(** The completion of an evaluation: a value, or a thrown error. *)
Inductive Res (A : Type) : Type :=
| Ok (a : A)
| Throw (e : Exn).
Arguments Ok {A} a.
Arguments Throw {A} e.

Class Monad (M : Type -> Type) : Type := {
  ret : forall {A}, A -> M A;
  bind : forall {A B}, M A -> (A -> M B) -> M B
}.

Declare Scope js_scope.
Delimit Scope js_scope with js.
Notation "x <- c ;; k" := (bind c (fun x => k))
  (at level 61, c at next level, right associativity) : js_scope.
Notation "c ;;; k" := (bind c (fun _ => k))
  (at level 61, right associativity) : js_scope.
Open Scope js_scope.

#[export] Instance Res_Monad : Monad Res := {
  ret := fun A a => Ok a;
  bind := fun A B c k => match c with Ok a => k a | Throw e => Throw e end
}.

(** [!!v] in JavaScript. *)
Definition truthy (v : JsVal) : bool :=
  match v with
  | JUndefined | JNull => false
  | JBool b => b
  | JNum n => negb (n =? 0)
  | JStr s => negb (s =? "")%string
  | JArr _ | JObj _ => true
  end.

(** [v == null]: the values optional chaining stops at. *)
Definition nullish (v : JsVal) : bool :=
  match v with
  | JUndefined | JNull => true
  | _ => false
  end.

(** [a || b] on values. *)
Definition or_else (a b : JsVal) : JsVal := if truthy a then a else b.

(** [a === b] against a string literal. *)
Definition is_string (v : JsVal) (lit : string) : bool :=
  match v with
  | JStr s => (s =? lit)%string
  | _ => false
  end.

(** [a === b] against a number literal. *)
Definition is_number (v : JsVal) (lit : Z) : bool :=
  match v with
  | JNum n => n =? lit
  | _ => false
  end.

(** The own properties of a parsed object, each name once. *)
Fixpoint lookup (k : string) (props : list (string * JsVal)) : JsVal :=
  match props with
  | [] => JUndefined
  | (k', v) :: rest => if (k' =? k)%string then v else lookup k rest
  end.

Fixpoint has_own (k : string) (props : list (string * JsVal)) : bool :=
  match props with
  | [] => false
  | (k', _) :: rest => (k' =? k)%string || has_own k rest
  end.

(** The decimal text of an integer, as JavaScript prints one below 1e21;
    fractions and the exponent form of larger numbers are outside the
    model. *)
Definition string_of_Z (n : Z) : string := NilZero.string_of_int (Z.to_int n).

Definition char_at (s : string) (i : nat) : JsVal :=
  match String.get i s with
  | Some c => JStr (String c EmptyString)
  | None => JUndefined
  end.

(** [v.k] for the property names the service reads.  Reading a property of
    [undefined] or [null] throws a TypeError; a primitive has no own
    properties but a string's [length] (counted here in bytes: the service
    only compares a length with zero); an array has its [length].  None of
    the names the service reads is a prototype property. *)
Definition get (v : JsVal) (k : string) : Res JsVal :=
  match v with
  | JUndefined | JNull => Throw TypeError
  | JObj props => Ok (lookup k props)
  | JArr elems =>
      if (k =? "length")%string then Ok (JNum (Z.of_nat (List.length elems)))
      else Ok JUndefined
  | JStr s =>
      if (k =? "length")%string then Ok (JNum (Z.of_nat (String.length s)))
      else Ok JUndefined
  | JBool _ | JNum _ => Ok JUndefined
  end.

(** [v[i]] for a literal index. *)
Definition get_index (v : JsVal) (i : nat) : Res JsVal :=
  match v with
  | JUndefined | JNull => Throw TypeError
  | JObj props => Ok (lookup (string_of_Z (Z.of_nat i)) props)
  | JArr elems => Ok (nth i elems JUndefined)
  | JStr s => Ok (char_at s i)
  | JBool _ | JNum _ => Ok JUndefined
  end.

(** String conversion, as a template literal and [Array.prototype.join]
    perform it.  A parsed object prints as [[object Object]] unless it has an
    own [toString] property: that property is not callable, [valueOf] then
    returns the object itself, and the conversion throws a TypeError.  An
    array prints as its elements joined with a comma, [undefined] and
    [null] elements as the empty string. *)
Fixpoint ToString (v : JsVal) : Res string :=
  match v with
  | JUndefined => Ok "undefined"
  | JNull => Ok "null"
  | JBool b => Ok (if b then "true" else "false")
  | JNum n => Ok (string_of_Z n)
  | JStr s => Ok s
  | JArr elems =>
      (fix go (l : list JsVal) : Res string :=
         match l with
         | [] => Ok ""
         | x :: rest =>
             s <- (if nullish x then Ok "" else ToString x) ;;
             match rest with
             | [] => Ok s
             | _ :: _ => r <- go rest ;; Ok (s ++ "," ++ r)
             end
         end) elems
  | JObj props =>
      if has_own "toString" props then Throw TypeError
      else Ok "[object Object]"
  end.

(** [elems.join(sep)]. *)
Fixpoint join (sep : string) (elems : list JsVal) : Res string :=
  match elems with
  | [] => Ok ""
  | x :: rest =>
      s <- (if nullish x then Ok "" else ToString x) ;;
      match rest with
      | [] => Ok s
      | _ :: _ => r <- join sep rest ;; Ok (s ++ sep ++ r)
      end
  end.

(** [v.map(f)]: only an array has a callable [map]. *)
Fixpoint map_elems (f : JsVal -> Res JsVal) (l : list JsVal) : Res (list JsVal) :=
  match l with
  | [] => Ok []
  | x :: rest => y <- f x ;; ys <- map_elems f rest ;; Ok (y :: ys)
  end.

Definition array_map (v : JsVal) (f : JsVal -> Res JsVal) : Res (list JsVal) :=
  match v with
  | JArr elems => map_elems f elems
  | _ => Throw TypeError
  end.

(** ** The data the service exchanges *)

(** The record handed to the widget.  The fields hold run-time values: the
    declared types ([boolean], [string | null], [string]) are not checked
    against what the upstream sends. *)
Record SpotifyData : Type := mkSpotifyData {
  isPlaying : JsVal;
  songUrl : JsVal;
  title : JsVal;
  albumImageUrl : JsVal;
  artist : JsVal
}.

Record CacheEntry : Type := mkCacheEntry {
  data : SpotifyData;
  timestamp : Z
}.

Definition CACHE_DURATION : Z := 15000.

(** The object [mapSpotifyData] returns, spread into a [SpotifyData]. *)
Module Mapped.
Record t : Type := mk {
  songUrl : JsVal;
  title : JsVal;
  albumImageUrl : JsVal;
  artist : JsVal
}.
End Mapped.

(** [{ isPlaying: p, ...m }] *)
Definition spread (p : JsVal) (m : Mapped.t) : SpotifyData :=
  mkSpotifyData p (Mapped.songUrl m) (Mapped.title m)
                (Mapped.albumImageUrl m) (Mapped.artist m).

(** The three requests the service sends.  A request is identified by its
    endpoint and the data put into it; the base64 and form encodings of the
    token request are not modelled. *)
Inductive Request : Type :=
| TokenRequest (clientId clientSecret refreshToken : string)
| CurrentlyPlaying (authorization : string)
| RecentlyPlayed (authorization : string).

(** What the service reads of a [Response]: its status and the outcome of
    [json()]. *)
Record Response : Type := mkResponse {
  status : Z;
  json : Res JsVal
}.

(** [response.ok], by the Fetch standard. *)
Definition ok (r : Response) : bool := (200 <=? status r) && (status r <=? 299).

Inductive Settled : Type :=
| Resolves (r : Response)
| Rejects (e : Exn).

(** How the upstream answers a request: the time the exchange takes and how
    the promise settles.  The answer may depend on every request sent
    before. *)
Record Reply : Type := mkReply {
  elapsed : Z;
  settled : Settled
}.

Definition Upstream : Type := list Request -> Request -> Reply.

(** [process.env], read once when the module is loaded. *)
Record ProcessEnv : Type := mkProcessEnv {
  SPOTIFY_CLIENT_ID : option string;
  SPOTIFY_CLIENT_SECRET : option string;
  SPOTIFY_REFRESH_TOKEN : option string
}.

(** [!c] for a value of [process.env]. *)
Definition missing (c : option string) : bool :=
  match c with
  | None => true
  | Some s => (s =? "")%string
  end.

Definition value (c : option string) : string :=
  match c with
  | None => "undefined"
  | Some s => s
  end.

(** ** State and effects *)

Record State : Type := mkState {
  cache : option CacheEntry;
  clock : Z;
  sent : list Request;
  console : list (string * Exn)
}.

Definition Async (A : Type) : Type := State -> Res A * State.

#[export] Instance Async_Monad : Monad Async := {
  ret := fun A a st => (Ok a, st);
  bind := fun A B c k st =>
    match c st with
    | (Ok a, st') => k a st'
    | (Throw e, st') => (Throw e, st')
    end
}.

Definition lift {A : Type} (r : Res A) : Async A := fun st => (r, st).

Definition throw {A : Type} (e : Exn) : Async A := fun st => (Throw e, st).

(** [try { body } catch (error) { handler }]: the effects of the body up to
    the throw are kept. *)
Definition try_catch {A : Type} (body : Async A) (handler : Exn -> Async A) : Async A :=
  fun st =>
    match body st with
    | (Ok a, st') => (Ok a, st')
    | (Throw e, st') => handler e st'
    end.

Definition Date_now : Async Z := fun st => (Ok (clock st), st).

Definition console_error (label : string) (e : Exn) : Async unit :=
  fun st => (Ok tt, mkState (cache st) (clock st) (sent st) (console st ++ [(label, e)])).

Definition read_cache : Async (option CacheEntry) := fun st => (Ok (cache st), st).

Definition write_cache (c : option CacheEntry) : Async unit :=
  fun st => (Ok tt, mkState c (clock st) (sent st) (console st)).

(** ** The service *)

Section Service.

Variable env : ProcessEnv.
Variable upstream : Upstream.

(** [await fetch(...)]: the request is recorded, the clock advances by the
    time the exchange takes, and the promise resolves or rejects.  The
    header is taken to be one the runtime accepts: the refusal of a header
    value with a line break or a character outside Latin-1, before anything
    is sent, is not modelled. *)
Definition fetch (req : Request) : Async Response :=
  fun st =>
    let reply := upstream (sent st) req in
    let st' := mkState (cache st) (clock st + elapsed reply) (sent st ++ [req]) (console st) in
    match settled reply with
    | Resolves r => (Ok r, st')
    | Rejects e => (Throw e, st')
    end.

Definition getAccessToken : Async JsVal :=
  let clientId := SPOTIFY_CLIENT_ID env in
  let clientSecret := SPOTIFY_CLIENT_SECRET env in
  let refreshToken := SPOTIFY_REFRESH_TOKEN env in
  if missing clientId || missing clientSecret || missing refreshToken then
    throw (Error "Missing Spotify credentials in environment variables")
  else
    response <- fetch (TokenRequest (value clientId) (value clientSecret) (value refreshToken)) ;;
    if negb (ok response) then
      throw (Error ("Token refresh failed: " ++ string_of_Z (status response)))
    else
      data <- lift (json response) ;;
      error <- lift (get data "error") ;;
      if truthy error then
        description <- lift (get data "error_description") ;;
        error' <- lift (get data "error") ;;
        text <- lift (ToString (or_else description error')) ;;
        throw (Error ("Spotify auth error: " ++ text))
      else
        ret data.

(** The [Authorization] header of [getAccessTokenHeader]. *)
Definition getAccessTokenHeader (accessToken : JsVal) : Res string :=
  text <- ToString accessToken ;;
  Ok ("Bearer " ++ text).

Definition getNowPlayingResponse (accessToken : JsVal) : Async Response :=
  header <- lift (getAccessTokenHeader accessToken) ;;
  fetch (CurrentlyPlaying header).

Definition mapSpotifyData (track : JsVal) : Res Mapped.t :=
  external_urls <- get track "external_urls" ;;
  spotify <- (if nullish external_urls then Ok JUndefined
              else get external_urls "spotify") ;;
  name <- get track "name" ;;
  album <- get track "album" ;;
  url <- (if nullish album then Ok JUndefined
          else
            images <- get album "images" ;;
            first <- get_index images 0 ;;
            if nullish first then Ok JUndefined else get first "url") ;;
  artists <- get track "artists" ;;
  joined <- (if nullish artists then Ok JUndefined
             else
               names <- array_map artists (fun artist => get artist "name") ;;
               text <- join ", " names ;;
               Ok (JStr text)) ;;
  Ok (Mapped.mk (or_else spotify JNull)
                (or_else name (JStr "Unknown Track"))
                (or_else url JNull)
                (or_else joined (JStr "Unknown Artist"))).

Definition getRecentlyPlayed (accessToken : JsVal) : Async SpotifyData :=
  try_catch
    (header <- lift (getAccessTokenHeader accessToken) ;;
     response <- fetch (RecentlyPlayed header) ;;
     if negb (ok response) then
       throw (Error ("Recently played API error: " ++ string_of_Z (status response)))
     else
       json <- lift (json response) ;;
       items <- lift (get json "items") ;;
       empty <- (if negb (truthy items) then ret true
                 else len <- lift (get items "length") ;; ret (is_number len 0)) ;;
       if (empty : bool) then
         ret (mkSpotifyData (JBool false) JNull (JStr "No Recent Tracks")
                            JNull (JStr "No listening history"))
       else
         items' <- lift (get json "items") ;;
         first <- lift (get_index items' 0) ;;
         track <- lift (get first "track") ;;
         mapped <- lift (mapSpotifyData track) ;;
         ret (spread (JBool false) mapped))
    (fun error =>
       console_error "Recently played error:" error ;;;
       ret (mkSpotifyData (JBool false) JNull (JStr "Unable to fetch")
                          JNull (JStr "Recent tracks unavailable"))).

Definition getCachedData : Async (option SpotifyData) :=
  c <- read_cache ;;
  match c with
  | None => ret None
  | Some entry =>
      now <- Date_now ;;
      if now - timestamp entry >? CACHE_DURATION then
        write_cache None ;;; ret None
      else
        ret (Some (data entry))
  end.

Definition setCachedData (d : SpotifyData) : Async unit :=
  now <- Date_now ;;
  write_cache (Some (mkCacheEntry d now)).

(** The test that sends an ad, an episode or an incomplete item to the
    fallback: [!data.item || !data.item.name || !data.item.artists ||
    data.currently_playing_type !== "track"]. *)
Definition no_track (data : JsVal) : Res bool :=
  item <- get data "item" ;;
  if negb (truthy item) then Ok true
  else
    name <- get item "name" ;;
    if negb (truthy name) then Ok true
    else
      artists <- get item "artists" ;;
      if negb (truthy artists) then Ok true
      else
        type <- get data "currently_playing_type" ;;
        Ok (negb (is_string type "track")).

(** The [try] block of [getSpotifyData] after the cache check: the token,
    the primary lookup and what follows from its answer. *)
Definition refresh : Async SpotifyData :=
  tokenData <- getAccessToken ;;
  access_token <- lift (get tokenData "access_token") ;;
  if negb (truthy access_token) then
    throw (Error "Failed to get access token")
  else
    nowPlayingResponse <- getNowPlayingResponse access_token ;;
    if status nowPlayingResponse =? 204 then
      recentData <- getRecentlyPlayed access_token ;;
      setCachedData recentData ;;;
      ret recentData
    else if status nowPlayingResponse =? 401 then
      throw (Error "Unauthorized - token may be expired")
    else if status nowPlayingResponse =? 403 then
      throw (Error "Forbidden - insufficient scopes")
    else if status nowPlayingResponse =? 429 then
      throw (Error "Rate limited - too many requests")
    else if negb (ok nowPlayingResponse) then
      throw (Error ("Spotify API error: " ++ string_of_Z (status nowPlayingResponse)))
    else
      data <- lift (json nowPlayingResponse) ;;
      fallback <- lift (no_track data) ;;
      if (fallback : bool) then
        recentData <- getRecentlyPlayed access_token ;;
        setCachedData recentData ;;;
        ret recentData
      else
        is_playing <- lift (get data "is_playing") ;;
        item <- lift (get data "item") ;;
        mapped <- lift (mapSpotifyData item) ;;
        let result := spread is_playing mapped in
        setCachedData result ;;;
        ret result.

(** The [try] block of [getSpotifyData]. *)
Definition getSpotifyData_try : Async SpotifyData :=
  cachedData <- getCachedData ;;
  match cachedData with
  | Some d => ret d
  | None => refresh
  end.

(** The record returned when nothing else is available. *)
Definition unavailable : SpotifyData :=
  mkSpotifyData (JBool false) JNull (JStr "Unable to fetch")
                JNull (JStr "Spotify data unavailable").

(** The [catch] block of [getSpotifyData]. *)
Definition getSpotifyData_catch (error : Exn) : Async SpotifyData :=
  console_error "Spotify API error:" error ;;;
  c <- read_cache ;;
  match c with
  | Some entry => ret (data entry)
  | None => ret unavailable
  end.

Definition getSpotifyData : Async SpotifyData :=
  try_catch getSpotifyData_try getSpotifyData_catch.

End Service.

(** ** Typed payloads and the notions the specification uses *)

(** A track as the declared types describe it, with the fields
    [mapSpotifyData] reads: the images of the album, the artists, the web
    link (which may be absent) and the name. *)
Record SpotifyImage : Type := mkSpotifyImage {
  url : string;
  height : Z;
  width : Z
}.

Record SpotifyArtist : Type := mkSpotifyArtist {
  name : string
}.

Record SpotifyAlbum : Type := mkSpotifyAlbum {
  images : list SpotifyImage
}.

Record Track : Type := mkTrack {
  album : SpotifyAlbum;
  artists : list SpotifyArtist;
  external_url : option string;
  track_name : string
}.

Definition js_of_image (i : SpotifyImage) : JsVal :=
  JObj [("url", JStr (url i)); ("height", JNum (height i)); ("width", JNum (width i))].

Definition js_of_artist (a : SpotifyArtist) : JsVal :=
  JObj [("name", JStr (name a)); ("type", JStr "artist")].

(** The JSON value of a typed track. *)
Definition js_of_track (t : Track) : JsVal :=
  JObj (("album", JObj [("images", JArr (map js_of_image (images (album t))))])
        :: ("artists", JArr (map js_of_artist (artists t)))
        :: match external_url t with
           | Some u => [("external_urls", JObj [("spotify", JStr u)])]
           | None => []
           end
        ++ [("name", JStr (track_name t)); ("type", JStr "track")]).

(** The normalisation as the specification words it: the link or [null] if
    absent, the name or "Unknown Track" if blank, the first image or [null]
    if there is none, the artists joined or "Unknown Artist" if there is
    none. *)
Definition normalization_as_specified (t : Track) : Mapped.t :=
  Mapped.mk
    (match external_url t with Some u => JStr u | None => JNull end)
    (if (track_name t =? "")%string then JStr "Unknown Track" else JStr (track_name t))
    (match images (album t) with [] => JNull | i :: _ => JStr (url i) end)
    (match artists t with
     | [] => JStr "Unknown Artist"
     | _ :: _ => JStr (String.concat ", " (map name (artists t)))
     end).

(** A string, or the fallback when the string is empty. *)
Definition nonempty_or (s : string) (fallback : JsVal) : JsVal :=
  if (s =? "")%string then fallback else JStr s.

(** The normalisation of a typed track as the code computes it: every
    fallback is taken when the text is empty, whatever the reason. *)
Definition normalization (t : Track) : Mapped.t :=
  Mapped.mk
    (match external_url t with Some u => nonempty_or u JNull | None => JNull end)
    (nonempty_or (track_name t) (JStr "Unknown Track"))
    (match images (album t) with [] => JNull | i :: _ => nonempty_or (url i) JNull end)
    (nonempty_or (String.concat ", " (map name (artists t))) (JStr "Unknown Artist")).

(** A field that holds a value: anything but [undefined]. *)
Definition populated (v : JsVal) : bool :=
  match v with
  | JUndefined => false
  | _ => true
  end.

Definition fully_populated (r : SpotifyData) : bool :=
  populated (isPlaying r) && populated (songUrl r) && populated (title r)
  && populated (albumImageUrl r) && populated (artist r).

(** The four fields the normalisation fills. *)
Definition track_fields_populated (r : SpotifyData) : bool :=
  populated (songUrl r) && populated (title r)
  && populated (albumImageUrl r) && populated (artist r).

(** The cache holds nothing, or a record whose track fields are filled. *)
Definition cache_populated (st : State) : Prop :=
  match cache st with
  | None => True
  | Some entry => track_fields_populated (data entry) = true
  end.

(** The call resolves to a record with every field filled. *)
Definition resolves_fully_populated (env : ProcessEnv) (upstream : Upstream) (st : State) : Prop :=
  exists r st', getSpotifyData env upstream st = (Ok r, st') /\ fully_populated r = true.

(** The age of a cache entry in a state. *)
Definition age (st : State) (entry : CacheEntry) : Z := clock st - timestamp entry.

(** The state of a freshly loaded module at a given time. *)
Definition loaded (now : Z) : State := mkState None now [] [].

(** The request for a token the configuration leads to. *)
Definition token_request (env : ProcessEnv) : Request :=
  TokenRequest (value (SPOTIFY_CLIENT_ID env)) (value (SPOTIFY_CLIENT_SECRET env))
               (value (SPOTIFY_REFRESH_TOKEN env)).

Definition credential_absent (env : ProcessEnv) : bool :=
  missing (SPOTIFY_CLIENT_ID env) || missing (SPOTIFY_CLIENT_SECRET env)
  || missing (SPOTIFY_REFRESH_TOKEN env).

(** The three reasons the specification gives for a failed token
    acquisition, on the answer of the token endpoint: a credential is absent,
    the response is not successful (a request that fails altogether counts
    as such), or the parsed body carries an error. *)
Definition token_failure_as_specified (env : ProcessEnv) (reply : Reply) : bool :=
  credential_absent env
  || match settled reply with
     | Rejects _ => true
     | Resolves r =>
         negb (ok r)
         || match json r with
            | Ok (JObj props) => truthy (lookup "error" props)
            | _ => false
            end
     end.

(** The reasons the code has: the three above, a body that cannot be
    parsed, and a body whose [error] property cannot be read. *)
Definition token_failure (env : ProcessEnv) (reply : Reply) : bool :=
  credential_absent env
  || match settled reply with
     | Rejects _ => true
     | Resolves r =>
         negb (ok r)
         || match json r with
            | Throw _ => true
            | Ok body =>
                match get body "error" with
                | Throw _ => true
                | Ok error => truthy error
                end
            end
     end.

Definition raises {A : Type} (c : Async A) (st : State) : Prop :=
  exists e st', c st = (Throw e, st').

(** Token acquisition raises exactly for the reasons the specification
    gives. *)
Definition raises_as_specified (env : ProcessEnv) (upstream : Upstream) (st : State) : Prop :=
  raises (getAccessToken env upstream) st
  <-> token_failure_as_specified env (upstream (sent st) (token_request env)) = true.

(** The upstream that answers every currently-playing request it resolves
    with 204 No Content, and is otherwise unchanged. *)
Definition with_no_content (upstream : Upstream) : Upstream :=
  fun history req =>
    match req, settled (upstream history req) with
    | CurrentlyPlaying _, Resolves r =>
        mkReply (elapsed (upstream history req)) (Resolves (mkResponse 204 (json r)))
    | _, _ => upstream history req
    end.

(** A property of a payload, [undefined] where there is nothing to read. *)
Definition field (v : JsVal) (k : string) : JsVal :=
  match get v k with
  | Ok x => x
  | Throw _ => JUndefined
  end.



(** The state once a record has been stored: [setCachedData]. *)
Definition stored (r : SpotifyData) (st : State) : State :=
  mkState (Some (mkCacheEntry r (clock st))) (clock st) (sent st) (console st).

(** ** Notions used in the proofs *)

(** A computation that leaves the cache slot alone. *)
Definition keeps_cache {A : Type} (c : Async A) : Prop :=
  forall st, cache (snd (c st)) = cache st.

(** What a computation can return, from some state. *)
Definition produced_by {A : Type} (c : Async A) (a : A) : Prop :=
  exists st st', c st = (Ok a, st').

Definition ensures {A : Type} (c : Async A) (P : A -> Prop) : Prop :=
  forall a, produced_by c a -> P a.

(** The state once [getCachedData] has dropped an entry. *)
Definition expired (st : State) : State :=
  mkState None (clock st) (sent st) (console st).

(** The outcome of a refresh: what it returns is in the cache, stamped with
    the time of the return, and a refresh that throws leaves the cache
    empty. *)
Definition refreshed (out : Res SpotifyData * State) : Prop :=
  match fst out with
  | Throw _ => cache (snd out) = None
  | Ok r =>
      cache (snd out) = Some (mkCacheEntry r (clock (snd out)))
      /\ track_fields_populated r = true
  end.

Definition on_miss (c : Async SpotifyData) : Prop :=
  forall st, cache st = None -> refreshed (c st).

(** ** Concrete configurations, upstreams and states *)

Definition configured : ProcessEnv :=
  mkProcessEnv (Some "client") (Some "secret") (Some "refresh").

Definition no_credentials : ProcessEnv := mkProcessEnv None None None.

Definition token_reply : Reply :=
  mkReply 40 (Resolves (mkResponse 200 (Ok (JObj [("access_token", JStr "t0ken")])))).

Definition one_track : Track :=
  mkTrack (mkSpotifyAlbum [mkSpotifyImage "https://i.scdn.co/image/1" 640 640])
          [mkSpotifyArtist "First"; mkSpotifyArtist "Second"]
          (Some "https://open.spotify.com/track/1") "Song".

Definition recent_reply : Reply :=
  mkReply 60 (Resolves (mkResponse 200
    (Ok (JObj [("items", JArr [JObj [("track", js_of_track one_track)]])])))).

(** An upstream that is playing [one_track]. *)
Definition playing : Upstream :=
  fun _ req =>
    match req with
    | TokenRequest _ _ _ => token_reply
    | CurrentlyPlaying _ =>
        mkReply 50 (Resolves (mkResponse 200
          (Ok (JObj [("is_playing", JBool true);
                     ("currently_playing_type", JStr "track");
                     ("item", js_of_track one_track)]))))
    | RecentlyPlayed _ => recent_reply
    end.

(** The same upstream, whose currently-playing payload carries no
    [is_playing] property. *)
Definition playing_without_flag : Upstream :=
  fun _ req =>
    match req with
    | TokenRequest _ _ _ => token_reply
    | CurrentlyPlaying _ =>
        mkReply 50 (Resolves (mkResponse 200
          (Ok (JObj [("currently_playing_type", JStr "track");
                     ("item", js_of_track one_track)]))))
    | RecentlyPlayed _ => recent_reply
    end.



(** An upstream whose token endpoint answers 200 with a body that is not
    JSON. *)
Definition garbled_token : Upstream :=
  fun _ req =>
    match req with
    | TokenRequest _ _ _ => mkReply 40 (Resolves (mkResponse 200 (Throw SyntaxError)))
    | _ => recent_reply
    end.

(** An upstream that cannot be reached. *)
Definition unreachable : Upstream :=
  fun _ _ => mkReply 5 (Rejects (Failure "fetch failed")).

Definition earlier : SpotifyData :=
  mkSpotifyData (JBool true) (JStr "https://open.spotify.com/track/0")
                (JStr "Earlier Song") JNull (JStr "Someone").

(** A state whose cache entry, stored at time 0, is [elapsed] old. *)
Definition cached_for (elapsed : Z) : State :=
  mkState (Some (mkCacheEntry earlier 0)) elapsed [] [].

(** A track whose only artist has an empty name. *)
Definition nameless_artist : Track :=
  mkTrack (mkSpotifyAlbum [mkSpotifyImage "https://i.scdn.co/image/2" 640 640])
          [mkSpotifyArtist ""]
          (Some "https://open.spotify.com/track/2") "Song".

(** ** The callers of the service *)

(** What [NextResponse.json] is given by the route: the record of the
    service, or the error object of the [catch] block. *)
Inductive RouteBody : Type :=
| DataBody (d : SpotifyData)
| ErrorBody (error : string).

Record NextResponse : Type := mkNextResponse {
  route_body : RouteBody;
  route_status : Z
}.

(** [NextResponse.json(body, init)]: the status is 200 unless [init] gives
    one. *)
Definition NextResponse_json (body : RouteBody) (init : option Z) : NextResponse :=
  mkNextResponse body (match init with Some s => s | None => 200 end).

(** [cn] of components/SpotifyWidgetServer.tsx:
    [classes.filter(Boolean).join(" ")]. *)
Definition cn (classes : list JsVal) : Res string :=
  join " " (filter truthy classes).

(** The [img] element of [SpinningAlbumCover]. *)
Record Img : Type := mkImg {
  img_src : JsVal;
  img_alt : JsVal;
  img_className : string
}.

Definition SpinningAlbumCover (src alt isPlaying : JsVal) : Res Img :=
  className <- cn [JStr "absolute aspect-square rounded-full";
                   JObj [("animate-[spin_5s_linear_infinite]", isPlaying)]] ;;
  Ok (mkImg src alt className).

(** What [SpotifyWidgetServer] renders, by the expressions of its JSX: the
    link and the classes of the anchor, the album cover, the line above the
    track, and the two texts. *)
Record Widget : Type := mkWidget {
  href : JsVal;
  className : string;
  cover : Img;
  status_line : string;
  title_text : JsVal;
  artist_text : JsVal
}.

(** The record of the [catch] block of [SpotifyWidgetServer]. *)
Definition unable_to_connect : SpotifyData :=
  mkSpotifyData (JBool false) JNull (JStr "Unable to connect")
                JNull (JStr "Spotify unavailable").

Section Callers.

Variable env : ProcessEnv.
Variable upstream : Upstream.

(** [GET] of app/api/spotify/route.ts; the request is not read. *)
Definition GET : Async NextResponse :=
  try_catch
    (data <- getSpotifyData env upstream ;;
     ret (NextResponse_json (DataBody data) None))
    (fun error =>
       console_error "API route error:" error ;;;
       ret (NextResponse_json (ErrorBody "Failed to fetch Spotify data") (Some 500))).

Definition SpotifyWidgetServer : Async Widget :=
  data <- try_catch (getSpotifyData env upstream)
            (fun error =>
               console_error "Failed to fetch Spotify data:" error ;;;
               ret unable_to_connect) ;;
  let link := or_else (songUrl data) (JStr "https://open.spotify.com/") in
  classes <- lift (cn [JStr "group relative flex h-full items-center gap-x-6 rounded-3xl p-5";
                       JStr "max-lg:p-6 md:max-lg:flex-col md:max-lg:items-start md:max-lg:justify-between";
                       JStr "hover:bg-slate-50 transition-colors duration-200"]) ;;
  let src := or_else (albumImageUrl data) (JStr "/images/spotify-placeholder.png") in
  alt <- lift (if truthy (albumImageUrl data)
               then text <- ToString (title data) ;; Ok ("Album cover for " ++ text)
               else Ok "Spotify logo") ;;
  image <- lift (SpinningAlbumCover src (JStr alt) (or_else (isPlaying data) (JBool false))) ;;
  ret (mkWidget link classes image
                (if truthy (isPlaying data) then "Now playing" else "Last played")
                (title data) (artist data)).

End Callers.

(** ** Further notions *)

(** The state after [elapsed] more milliseconds. *)
Definition advance (elapsed : Z) (st : State) : State :=
  mkState (cache st) (clock st + elapsed) (sent st) (console st).

(** The state once an error has been written to the console. *)
Definition logged (label : string) (e : Exn) (st : State) : State :=
  mkState (cache st) (clock st) (sent st) (console st ++ [(label, e)]).

(** The requests one call of the service can send: none; the token
    request; then the primary lookup; then the fallback lookup, with the
    header of the primary lookup. *)
Definition request_sequence (env : ProcessEnv) (l : list Request) : Prop :=
  l = []
  \/ l = [token_request env]
  \/ exists header,
       l = [token_request env; CurrentlyPlaying header]
       \/ l = [token_request env; CurrentlyPlaying header; RecentlyPlayed header].

(** A computation that sends no request. *)
Definition keeps_sent {A : Type} (c : Async A) : Prop :=
  forall st, sent (snd (c st)) = sent st.

(** The state after a run of calls of the service, each made after a
    wait. *)
Fixpoint after_calls (env : ProcessEnv) (upstream : Upstream)
         (waits : list Z) (st : State) : State :=
  match waits with
  | [] => st
  | wait :: rest =>
      after_calls env upstream rest (snd (getSpotifyData env upstream (advance wait st)))
  end.

(** No entry of the cache is stamped later than the clock. *)
Definition stamped_in_the_past (st : State) : Prop :=
  match cache st with
  | None => True
  | Some entry => timestamp entry <= clock st
  end.

(** The class names the declared type of [cn] admits: a string,
    [undefined] or [false]. *)
Inductive ClassName : Type :=
| Class (s : string)
| NoClass
| FalseClass.

Definition js_of_class (c : ClassName) : JsVal :=
  match c with
  | Class s => JStr s
  | NoClass => JUndefined
  | FalseClass => JBool false
  end.

(** The non-empty strings among class names, in their order. *)
Fixpoint class_strings (l : list ClassName) : list string :=
  match l with
  | [] => []
  | Class s :: rest => if (s =? "")%string then class_strings rest else s :: class_strings rest
  | _ :: rest => class_strings rest
  end.

(** The record returned for an empty history. *)
Definition no_recent_tracks : SpotifyData :=
  mkSpotifyData (JBool false) JNull (JStr "No Recent Tracks")
                JNull (JStr "No listening history").

(** The record returned when the fallback lookup fails. *)
Definition recent_tracks_unavailable : SpotifyData :=
  mkSpotifyData (JBool false) JNull (JStr "Unable to fetch")
                JNull (JStr "Recent tracks unavailable").

(** An upstream whose recently-played endpoint lists two tracks. *)
Definition two_recent : Upstream :=
  fun _ req =>
    match req with
    | TokenRequest _ _ _ => token_reply
    | CurrentlyPlaying _ => mkReply 50 (Resolves (mkResponse 204 (Throw SyntaxError)))
    | RecentlyPlayed _ =>
        mkReply 60 (Resolves (mkResponse 200
          (Ok (JObj [("items", JArr [JObj [("track", js_of_track one_track)];
                                     JObj [("track", js_of_track nameless_artist)]])]))))
    end.

(** An upstream with an empty listening history. *)
Definition no_history : Upstream :=
  fun _ req =>
    match req with
    | TokenRequest _ _ _ => token_reply
    | CurrentlyPlaying _ => mkReply 50 (Resolves (mkResponse 204 (Throw SyntaxError)))
    | RecentlyPlayed _ =>
        mkReply 60 (Resolves (mkResponse 200 (Ok (JObj [("items", JArr [])]))))
    end.

(** An upstream whose player endpoints answer 401. *)
Definition unauthorized : Upstream :=
  fun _ req =>
    match req with
    | TokenRequest _ _ _ => token_reply
    | _ => mkReply 50 (Resolves (mkResponse 401 (Ok (JObj [("error", JStr "expired")]))))
    end.

(** An upstream whose token endpoint reports an error in a 200 body. *)
Definition invalid_grant : Upstream :=
  fun _ req =>
    match req with
    | TokenRequest _ _ _ =>
        mkReply 40 (Resolves (mkResponse 200
          (Ok (JObj [("error", JStr "invalid_grant");
                     ("error_description", JStr "Refresh token revoked")]))))
    | _ => recent_reply
    end.

(** An upstream whose token endpoint answers without a token. *)
Definition no_token : Upstream :=
  fun _ req =>
    match req with
    | TokenRequest _ _ _ =>
        mkReply 40 (Resolves (mkResponse 200 (Ok (JObj [("token_type", JStr "Bearer")]))))
    | _ => recent_reply
    end.

(** A text of visible ASCII characters, as an access token is: the
    [Authorization] header built from it is one every [fetch] accepts as it
    is written. *)
Definition visible (c : ascii) : bool :=
  (33 <=? nat_of_ascii c)%nat && (nat_of_ascii c <=? 126)%nat.

Fixpoint plain_text (s : string) : bool :=
  match s with
  | EmptyString => true
  | String c rest => visible c && plain_text rest
  end.

(** The [isPlaying] of a record is [false], or is the [is_playing] property,
    as it was sent, of a currently-playing payload with a valid track
    item. *)
Definition flag_from_payload (upstream : Upstream) (r : SpotifyData) : Prop :=
  isPlaying r = JBool false
  \/ exists history header response body,
       settled (upstream history (CurrentlyPlaying header)) = Resolves response
       /\ json response = Ok body
       /\ no_track body = Ok false
       /\ isPlaying r = field body "is_playing".

Definition cache_flag_from_payload (upstream : Upstream) (st : State) : Prop :=
  match cache st with
  | None => True
  | Some entry => flag_from_payload upstream (data entry)
  end.

(** An upstream that is playing [one_track] while the first two requests
    are made, and cannot be reached afterwards. *)
Definition playing_then_unreachable : Upstream :=
  fun history req =>
    match history with
    | [] | [_] => playing history req
    | _ :: _ :: _ => unreachable history req
    end.

(** * Properties *)

(** ** Computations that leave the cache slot alone *)

Lemma keeps_ret {A : Type} (a : A) : keeps_cache (ret a).
Proof. intro st. reflexivity. Qed.

Lemma keeps_lift {A : Type} (r : Res A) : keeps_cache (lift r).
Proof. intro st. reflexivity. Qed.

Lemma keeps_throw {A : Type} (e : Exn) : keeps_cache (@throw A e).
Proof. intro st. reflexivity. Qed.

Lemma keeps_console_error (label : string) (e : Exn) :
  keeps_cache (console_error label e).
Proof. intro st. reflexivity. Qed.

Lemma keeps_fetch (upstream : Upstream) (req : Request) :
  keeps_cache (fetch upstream req).
Proof.
  intro st. unfold fetch.
  destruct (settled (upstream (sent st) req)); reflexivity.
Qed.

Lemma keeps_bind {A B : Type} (c : Async A) (k : A -> Async B) :
  keeps_cache c -> (forall a, keeps_cache (k a)) -> keeps_cache (bind c k).
Proof.
  intros Hc Hk st. cbn.
  specialize (Hc st).
  destruct (c st) as [[a | e] st1]; cbn in *.
  - rewrite Hk. exact Hc.
  - exact Hc.
Qed.

Lemma keeps_try_catch {A : Type} (body : Async A) (handler : Exn -> Async A) :
  keeps_cache body -> (forall e, keeps_cache (handler e)) ->
  keeps_cache (try_catch body handler).
Proof.
  intros Hb Hh st. unfold try_catch.
  specialize (Hb st).
  destruct (body st) as [[a | e] st1]; cbn in *.
  - exact Hb.
  - rewrite Hh. exact Hb.
Qed.

Ltac keeps_step :=
  match goal with
  | |- keeps_cache (bind _ _) => apply keeps_bind; [ | intro ]
  | |- keeps_cache (try_catch _ _) => apply keeps_try_catch; [ | intro ]
  | |- keeps_cache (ret _) => apply keeps_ret
  | |- keeps_cache (lift _) => apply keeps_lift
  | |- keeps_cache (throw _) => apply keeps_throw
  | |- keeps_cache (console_error _ _) => apply keeps_console_error
  | |- keeps_cache (fetch _ _) => apply keeps_fetch
  | |- keeps_cache (if ?b then _ else _) => destruct b
  end.

Lemma keeps_getAccessToken (env : ProcessEnv) (upstream : Upstream) :
  keeps_cache (getAccessToken env upstream).
Proof. unfold getAccessToken. repeat keeps_step. Qed.

Lemma keeps_getNowPlayingResponse (upstream : Upstream) (token : JsVal) :
  keeps_cache (getNowPlayingResponse upstream token).
Proof. unfold getNowPlayingResponse. repeat keeps_step. Qed.

Lemma keeps_getRecentlyPlayed (upstream : Upstream) (token : JsVal) :
  keeps_cache (getRecentlyPlayed upstream token).
Proof. unfold getRecentlyPlayed. repeat keeps_step. Qed.

(** ** What a computation can return *)

Lemma produced_by_lift {A : Type} (r : Res A) (a : A) :
  produced_by (lift r) a -> r = Ok a.
Proof. intros (st & st' & H). unfold lift in H. congruence. Qed.

Lemma ensures_ret {A : Type} (a : A) (P : A -> Prop) : P a -> ensures (ret a) P.
Proof. intros HP b (st & st' & H). cbn in H. congruence. Qed.

Lemma ensures_throw {A : Type} (e : Exn) (P : A -> Prop) : ensures (throw e) P.
Proof. intros b (st & st' & H). unfold throw in H. discriminate. Qed.

Lemma ensures_bind {A B : Type} (c : Async A) (k : A -> Async B) (P : B -> Prop) :
  (forall a, produced_by c a -> ensures (k a) P) -> ensures (bind c k) P.
Proof.
  intros Hk b (st & st' & H). cbn in H.
  destruct (c st) as [[a | e] st1] eqn:Hc; [ | discriminate ].
  apply (Hk a); [ exists st, st1; exact Hc | exists st1, st'; exact H ].
Qed.

Lemma ensures_try_catch {A : Type} (body : Async A) (handler : Exn -> Async A)
      (P : A -> Prop) :
  ensures body P -> (forall e, ensures (handler e) P) ->
  ensures (try_catch body handler) P.
Proof.
  intros Hb Hh a (st & st' & H). unfold try_catch in H.
  destruct (body st) as [[b | e] st1] eqn:Hc.
  - apply Hb. exists st, st1. congruence.
  - apply (Hh e). exists st1, st'. exact H.
Qed.

Ltac ensures_step :=
  match goal with
  | |- ensures (bind (lift _) _) _ =>
      apply ensures_bind; let a := fresh "v" in let H := fresh "Hv" in
      intros a H; apply produced_by_lift in H
  | |- ensures (bind _ _) _ => apply ensures_bind; intros ? _
  | |- ensures (try_catch _ _) _ => apply ensures_try_catch; [ | intro ]
  | |- ensures (throw _) _ => apply ensures_throw
  | |- ensures (if ?b then _ else _) _ => destruct b
  end.

(** ** Normalisation fills the track fields *)

Lemma populated_or_else (a b : JsVal) : populated b = true -> populated (or_else a b) = true.
Proof.
  intro Hb. unfold or_else.
  destruct (truthy a) eqn:Ha; [ | exact Hb ].
  destruct a; cbn in *; congruence.
Qed.

Lemma mapSpotifyData_populated (track : JsVal) (m : Mapped.t) (p : JsVal) :
  mapSpotifyData track = Ok m -> track_fields_populated (spread p m) = true.
Proof.
  unfold mapSpotifyData. cbn [bind Res_Monad]. intro H.
  repeat match type of H with
         | match ?c with Ok _ => _ | Throw _ => _ end = Ok _ =>
             destruct c; [ | discriminate ]
         end.
  injection H as <-.
  unfold track_fields_populated, spread; cbn.
  rewrite !populated_or_else; reflexivity.
Qed.

Lemma getRecentlyPlayed_ensures (upstream : Upstream) (token : JsVal) :
  ensures (getRecentlyPlayed upstream token)
          (fun r => isPlaying r = JBool false /\ track_fields_populated r = true).
Proof.
  unfold getRecentlyPlayed.
  repeat ensures_step;
    try (apply ensures_ret; split; [ reflexivity | ];
         first [ reflexivity | eapply mapSpotifyData_populated; eassumption ]).
Qed.

Lemma getRecentlyPlayed_settles (upstream : Upstream) (token : JsVal) (st : State) :
  exists r st', getRecentlyPlayed upstream token st = (Ok r, st').
Proof.
  unfold getRecentlyPlayed, try_catch.
  match goal with |- context [match ?b st with _ => _ end] => destruct (b st) as [[r | e] st1] end.
  - eauto.
  - cbn. eauto.
Qed.

(** ** The cache check *)

Lemma getCachedData_empty (st : State) :
  cache st = None -> getCachedData st = (Ok None, st).
Proof. intro H. unfold getCachedData, read_cache. cbn. rewrite H. reflexivity. Qed.

Lemma getCachedData_fresh (st : State) (entry : CacheEntry) :
  cache st = Some entry -> age st entry <= CACHE_DURATION ->
  getCachedData st = (Ok (Some (data entry)), st).
Proof.
  intros H Hage. unfold getCachedData, read_cache, age in *. cbn. rewrite H. cbn.
  destruct (Z.gtb_spec (clock st - timestamp entry) CACHE_DURATION); [ lia | reflexivity ].
Qed.

Lemma getCachedData_expired (st : State) (entry : CacheEntry) :
  cache st = Some entry -> age st entry > CACHE_DURATION ->
  getCachedData st = (Ok None, expired st).
Proof.
  intros H Hage. unfold getCachedData, read_cache, age in *. cbn. rewrite H. cbn.
  destruct (Z.gtb_spec (clock st - timestamp entry) CACHE_DURATION); [ reflexivity | lia ].
Qed.

(** ** A refresh stores what it returns, and leaves nothing behind when it
    fails *)

Lemma on_miss_bind {A : Type} (c : Async A) (k : A -> Async SpotifyData) :
  keeps_cache c -> (forall a, produced_by c a -> on_miss (k a)) ->
  on_miss (bind c k).
Proof.
  intros Hc Hk st Hst. cbn.
  specialize (Hc st).
  destruct (c st) as [[a | e] st1] eqn:Hrun; cbn in Hc.
  - apply (Hk a); [ exists st, st1; exact Hrun | congruence ].
  - unfold refreshed. cbn. congruence.
Qed.

Lemma on_miss_throw (e : Exn) : on_miss (throw e).
Proof. intros st Hst. exact Hst. Qed.

Lemma on_miss_store (r : SpotifyData) :
  track_fields_populated r = true -> on_miss (setCachedData r ;;; ret r).
Proof. intros Hr st Hst. split; [ reflexivity | exact Hr ]. Qed.

Ltac on_miss_step :=
  match goal with
  | |- on_miss (bind (lift _) _) =>
      apply on_miss_bind; [ apply keeps_lift | ];
      let a := fresh "v" in let H := fresh "Hv" in
      intros a H; apply produced_by_lift in H
  | |- on_miss (bind (getAccessToken _ _) _) =>
      apply on_miss_bind; [ apply keeps_getAccessToken | intros ? _ ]
  | |- on_miss (bind (getNowPlayingResponse _ _) _) =>
      apply on_miss_bind; [ apply keeps_getNowPlayingResponse | intros ? _ ]
  | |- on_miss (bind (getRecentlyPlayed _ _) _) =>
      apply on_miss_bind; [ apply keeps_getRecentlyPlayed | ];
      let r := fresh "recent" in let H := fresh "Hrecent" in
      intros r H; apply getRecentlyPlayed_ensures in H; destruct H as [_ H]
  | |- on_miss (throw _) => apply on_miss_throw
  | |- on_miss (if ?b then _ else _) => destruct b
  end.

Lemma refresh_on_miss (env : ProcessEnv) (upstream : Upstream) :
  on_miss (refresh env upstream).
Proof.
  unfold refresh.
  repeat on_miss_step;
    apply on_miss_store;
    first [ assumption | eapply mapSpotifyData_populated; eassumption ].
Qed.

Lemma getCachedData_miss (st st0 : State) :
  getCachedData st = (Ok None, st0) -> cache st0 = None.
Proof.
  unfold getCachedData, read_cache. cbn.
  destruct (cache st) as [entry | ] eqn:Hc; cbn.
  - destruct (clock st - timestamp entry >? CACHE_DURATION); cbn; intro H;
      [ injection H as <-; reflexivity | discriminate ].
  - intro H. injection H as <-. exact Hc.
Qed.

(** What the [try] block does: it answers from a fresh entry and touches
    nothing, or it drops what the cache held and refreshes. *)
Lemma getSpotifyData_try_outcome (env : ProcessEnv) (upstream : Upstream) (st : State) :
  (exists entry, cache st = Some entry /\ age st entry <= CACHE_DURATION
                 /\ getSpotifyData_try env upstream st = (Ok (data entry), st))
  \/ ((cache st = None \/ exists entry, cache st = Some entry /\ age st entry > CACHE_DURATION)
      /\ refreshed (getSpotifyData_try env upstream st)).
Proof.
  unfold getSpotifyData_try. cbn [bind Async_Monad].
  destruct (cache st) as [entry | ] eqn:Hc.
  - destruct (Z_le_gt_dec (age st entry) CACHE_DURATION) as [Hfresh | Hold].
    + left. exists entry. rewrite (getCachedData_fresh st Hc Hfresh). auto.
    + right. split; [ right; eauto | ].
      rewrite (getCachedData_expired st Hc Hold).
      apply refresh_on_miss. reflexivity.
  - right. split; [ left; reflexivity | ].
    rewrite (getCachedData_empty st Hc).
    apply refresh_on_miss. exact Hc.
Qed.

(** When the [try] block throws, the [catch] block finds the cache empty. *)
Lemma failed_refresh_returns_unavailable (env : ProcessEnv) (upstream : Upstream)
      (st st' : State) (e : Exn) :
  getSpotifyData_try env upstream st = (Throw e, st') ->
  cache st' = None
  /\ fst (getSpotifyData env upstream st) = Ok unavailable.
Proof.
  intro Htry.
  assert (Hnone : cache st' = None).
  { destruct (getSpotifyData_try_outcome env upstream st)
      as [(entry & _ & _ & Hhit) | (_ & Hre)].
    - congruence.
    - rewrite Htry in Hre. exact Hre. }
  split; [ exact Hnone | ].
  unfold getSpotifyData, try_catch. rewrite Htry.
  unfold getSpotifyData_catch, console_error, read_cache. cbn.
  rewrite Hnone. reflexivity.
Qed.

(** [getSpotifyData] never raises: from every state, for
    every configuration and every behaviour of the upstream, it resolves to
    a record.  When the cache holds nothing or a record whose track fields
    are filled, the record returned has [songUrl], [title], [albumImageUrl]
    and [artist] filled and the cache stays so; [isPlaying] is whatever the
    payload carried. *)
Theorem getSpotifyData_never_raises (env : ProcessEnv) (upstream : Upstream) (st : State) :
  exists r st',
    getSpotifyData env upstream st = (Ok r, st')
    /\ (cache_populated st -> track_fields_populated r = true /\ cache_populated st').
Proof.
  unfold getSpotifyData, try_catch.
  destruct (getSpotifyData_try_outcome env upstream st)
    as [(entry & Hc & _ & Hhit) | (_ & Hre)].
  - rewrite Hhit. exists (data entry), st. split; [ reflexivity | ].
    intro Hinv. split; [ | exact Hinv ].
    unfold cache_populated in Hinv. rewrite Hc in Hinv. exact Hinv.
  - destruct (getSpotifyData_try env upstream st) as [[r | e] st1];
      unfold refreshed in Hre; cbn in Hre.
    + exists r, st1. split; [ reflexivity | ].
      intros _. destruct Hre as [Hstored Hr]. split; [ exact Hr | ].
      unfold cache_populated. rewrite Hstored. exact Hr.
    + unfold getSpotifyData_catch, console_error, read_cache. cbn.
      rewrite Hre. eexists _, _. split; [ reflexivity | ].
      intros _. split; [ reflexivity | ].
      exact I.
Qed.

Lemma getSpotifyData_never_raises_witness :
  exists r st',
    getSpotifyData configured unreachable (cached_for 20000) = (Ok r, st')
    /\ track_fields_populated r = true.
Proof.
  destruct (getSpotifyData_never_raises configured unreachable (cached_for 20000))
    as (r & st' & Hrun & Hfields).
  exists r, st'. split; [ exact Hrun | ].
  apply Hfields. reflexivity.
Defined.

(** When the currently-playing payload has no [is_playing] property the
    record returned has [isPlaying] undefined. *)
Lemma missing_flag_leaves_isPlaying_undefined :
  ~ resolves_fully_populated configured playing_without_flag (loaded 0).
Proof.
  intros (r & st' & Hrun & Hfull).
  vm_compute in Hrun. injection Hrun as <- _.
  discriminate Hfull.
Qed.

(** An entry stored at time 0 is 15001 ms old and no credential is
    configured: the cache check drops the
    entry before the token is asked for, so when token acquisition throws the
    [catch] block finds no entry and returns the hard-coded record, not the
    record that was cached. *)
Theorem expired_entry_is_dropped_before_the_refresh_fails (upstream : Upstream) :
  getSpotifyData no_credentials upstream (cached_for 15001)
  = (Ok unavailable,
     mkState None 15001 []
             [("Spotify API error:",
               Error "Missing Spotify credentials in environment variables")])
  /\ unavailable <> earlier.
Proof. split; [ reflexivity | discriminate ]. Qed.

(** C3. With a cache entry within the freshness window, two calls in a row
    return the same record, the cached one, and neither sends a request:
    the state, and so the list of requests sent, is unchanged. *)
Theorem fresh_entry_is_served_without_requests
        (env : ProcessEnv) (upstream : Upstream) (st : State) (entry : CacheEntry) :
  cache st = Some entry -> age st entry <= CACHE_DURATION ->
  exists r st1 st2,
    getSpotifyData env upstream st = (Ok r, st1)
    /\ getSpotifyData env upstream st1 = (Ok r, st2)
    /\ r = data entry
    /\ sent st1 = sent st /\ sent st2 = sent st1.
Proof.
  intros Hc Hfresh.
  assert (Hhit : getSpotifyData env upstream st = (Ok (data entry), st)).
  { unfold getSpotifyData, try_catch, getSpotifyData_try. cbn [bind Async_Monad].
    rewrite (getCachedData_fresh st Hc Hfresh). reflexivity. }
  exists (data entry), st, st. auto.
Qed.

Lemma fresh_entry_is_served_without_requests_witness :
  exists r st1 st2,
    getSpotifyData configured playing (cached_for 9000) = (Ok r, st1)
    /\ getSpotifyData configured playing st1 = (Ok r, st2)
    /\ r = earlier
    /\ sent st1 = [] /\ sent st2 = sent st1.
Proof.
  apply (@fresh_entry_is_served_without_requests
           configured playing (cached_for 9000) (mkCacheEntry earlier 0)).
  - reflexivity.
  - vm_compute. discriminate.
Defined.

(** The record a completed [try] block returns is served again by a call
    made before any time passes. *)
Lemma returned_record_is_served_next
      (env : ProcessEnv) (upstream : Upstream) (st st' : State) (r : SpotifyData) :
  getSpotifyData_try env upstream st = (Ok r, st') ->
  getSpotifyData env upstream st' = (Ok r, st').
Proof.
  intro Htry.
  assert (Hserved : exists entry,
             cache st' = Some entry /\ age st' entry <= CACHE_DURATION /\ data entry = r).
  { destruct (getSpotifyData_try_outcome env upstream st)
      as [(entry & Hc & Hfresh & Hhit) | (_ & Hre)].
    - exists entry. rewrite Hhit in Htry. injection Htry as <- <-. auto.
    - rewrite Htry in Hre. destruct Hre as [Hstored _].
      exists (mkCacheEntry r (clock st')). split; [ exact Hstored | ].
      unfold age, CACHE_DURATION. cbn. split; [ lia | reflexivity ]. }
  destruct Hserved as (entry & Hc & Hfresh & <-).
  unfold getSpotifyData, try_catch, getSpotifyData_try. cbn [bind Async_Monad].
  rewrite (getCachedData_fresh st' Hc Hfresh). reflexivity.
Qed.

(** C4. [getRecentlyPlayed] never raises: whatever the recently-played
    endpoint does, it returns a record, and the record has
    [isPlaying = false]. *)
Theorem getRecentlyPlayed_never_raises
        (upstream : Upstream) (token : JsVal) (st : State) :
  exists r st',
    getRecentlyPlayed upstream token st = (Ok r, st')
    /\ isPlaying r = JBool false.
Proof.
  destruct (getRecentlyPlayed_settles upstream token st) as (r & st' & Hrun).
  exists r, st'. split; [ exact Hrun | ].
  apply (@getRecentlyPlayed_ensures upstream token r).
  exists st, st'. exact Hrun.
Qed.

(** C8. With no cache entry, when token acquisition throws, the call
    returns the hard-coded record. *)
Theorem token_failure_without_cache_returns_unavailable
        (env : ProcessEnv) (upstream : Upstream) (st st' : State) (e : Exn) :
  cache st = None ->
  getAccessToken env upstream st = (Throw e, st') ->
  fst (getSpotifyData env upstream st)
  = Ok (mkSpotifyData (JBool false) JNull (JStr "Unable to fetch")
                      JNull (JStr "Spotify data unavailable")).
Proof.
  intros Hc Htoken.
  assert (Htry : getSpotifyData_try env upstream st = (Throw e, st')).
  { unfold getSpotifyData_try. cbn [bind Async_Monad].
    rewrite (getCachedData_empty st Hc).
    unfold refresh. cbn [bind Async_Monad]. rewrite Htoken. reflexivity. }
  apply (failed_refresh_returns_unavailable _ _ _ Htry).
Qed.

Lemma token_failure_without_cache_returns_unavailable_witness :
  fst (getSpotifyData no_credentials playing (loaded 0))
  = Ok (mkSpotifyData (JBool false) JNull (JStr "Unable to fetch")
                      JNull (JStr "Spotify data unavailable")).
Proof.
  apply (@token_failure_without_cache_returns_unavailable
           no_credentials playing (loaded 0) (loaded 0)
           (Error "Missing Spotify credentials in environment variables")).
  - reflexivity.
  - reflexivity.
Defined.

(** C9. A call that passes the cache check without a hit and whose [try]
    block completes returns what that block returns, and the cache then
    holds that record, stamped with the time of the return. *)
Theorem completed_refresh_is_cached
        (env : ProcessEnv) (upstream : Upstream) (st st0 st' : State) (r : SpotifyData) :
  getCachedData st = (Ok None, st0) ->
  getSpotifyData_try env upstream st = (Ok r, st') ->
  getSpotifyData env upstream st = (Ok r, st')
  /\ cache st' = Some (mkCacheEntry r (clock st')).
Proof.
  intros Hmiss Htry. split.
  - unfold getSpotifyData, try_catch. rewrite Htry. reflexivity.
  - unfold getSpotifyData_try in Htry. cbn [bind Async_Monad] in Htry.
    rewrite Hmiss in Htry.
    pose proof (@refresh_on_miss env upstream st0 (getCachedData_miss _ Hmiss)) as Hre.
    rewrite Htry in Hre. exact (proj1 Hre).
Qed.

Lemma completed_refresh_is_cached_witness :
  exists r st',
    getSpotifyData configured playing (cached_for 20000) = (Ok r, st')
    /\ cache st' = Some (mkCacheEntry r (clock st'))
    /\ r <> earlier /\ clock st' = 20090.
Proof.
  pose proof (@completed_refresh_is_cached
                configured playing (cached_for 20000) _ _ _ eq_refl eq_refl)
    as [Hrun Hcache].
  eexists _, _. split; [ exact Hrun | ]. split; [ exact Hcache | ].
  split; [ discriminate | reflexivity ].
Defined.

(** C10. The boundary of the freshness window is inclusive: an entry
    whose age is exactly the 15000 ms of [CACHE_DURATION] is served from the
    cache, with no request and no change of state; the cache check drops an
    entry exactly when its age is strictly greater. *)
Theorem freshness_boundary_is_inclusive
        (env : ProcessEnv) (upstream : Upstream) (st : State) (entry : CacheEntry) :
  cache st = Some entry ->
  CACHE_DURATION = 15000
  /\ (age st entry = 15000 ->
      getSpotifyData env upstream st = (Ok (data entry), st))
  /\ (cache (snd (getCachedData st)) = None <-> age st entry > 15000).
Proof.
  intro Hc. split; [ reflexivity | ]. split.
  - intro Hage.
    unfold getSpotifyData, try_catch, getSpotifyData_try. cbn [bind Async_Monad].
    rewrite (getCachedData_fresh st Hc); [ reflexivity | ].
    unfold CACHE_DURATION. lia.
  - change 15000 with CACHE_DURATION.
    destruct (Z_le_gt_dec (age st entry) CACHE_DURATION) as [Hfresh | Hold].
    + rewrite (getCachedData_fresh st Hc Hfresh). cbn. rewrite Hc.
      split; [ discriminate | lia ].
    + rewrite (getCachedData_expired st Hc Hold). cbn.
      split; [ intros _; exact Hold | reflexivity ].
Qed.

Lemma freshness_boundary_is_inclusive_witness :
  getSpotifyData configured unreachable (cached_for 15000) = (Ok earlier, cached_for 15000)
  /\ cache (snd (getCachedData (cached_for 15001))) = None.
Proof.
  split.
  - apply (@freshness_boundary_is_inclusive
             configured unreachable (cached_for 15000) (mkCacheEntry earlier 0));
      reflexivity.
  - apply (@freshness_boundary_is_inclusive
             configured unreachable (cached_for 15001) (mkCacheEntry earlier 0));
      [ reflexivity | vm_compute; reflexivity ].
Defined.

(** ** Normalisation of a typed track *)

Lemma or_else_string (s : string) (fallback : JsVal) :
  or_else (JStr s) fallback = nonempty_or s fallback.
Proof. unfold or_else, nonempty_or. cbn. destruct (s =? "")%string; reflexivity. Qed.

Lemma map_elems_names (l : list SpotifyArtist) :
  map_elems (fun artist => get artist "name") (map js_of_artist l)
  = Ok (map JStr (map name l)).
Proof.
  induction l as [ | a l IH]; [ reflexivity | ].
  cbn [map map_elems]. cbn [bind Res_Monad]. rewrite IH. reflexivity.
Qed.

Lemma join_strings (sep : string) (l : list string) :
  join sep (map JStr l) = Ok (String.concat sep l).
Proof.
  induction l as [ | s l IH]; [ reflexivity | ].
  cbn [map join]. cbn [nullish ToString bind Res_Monad].
  destruct l as [ | s' l']; [ reflexivity | ].
  cbn [map] in *. rewrite IH. reflexivity.
Qed.

Lemma get_track_external_urls (t : Track) :
  get (js_of_track t) "external_urls"
  = Ok match external_url t with
       | Some u => JObj [("spotify", JStr u)]
       | None => JUndefined
       end.
Proof. unfold js_of_track. destruct (external_url t); reflexivity. Qed.

Lemma get_track_name (t : Track) :
  get (js_of_track t) "name" = Ok (JStr (track_name t)).
Proof. unfold js_of_track. destruct (external_url t); reflexivity. Qed.

Lemma get_track_album (t : Track) :
  get (js_of_track t) "album"
  = Ok (JObj [("images", JArr (map js_of_image (images (album t))))]).
Proof. reflexivity. Qed.

Lemma get_track_artists (t : Track) :
  get (js_of_track t) "artists" = Ok (JArr (map js_of_artist (artists t))).
Proof. reflexivity. Qed.

(** C5 (as amended). On a typed track [mapSpotifyData] returns the link,
    the name, the URL of the first image and the artist names joined with
    ", " in their order, each replaced by its fallback ([null], "Unknown
    Track", [null], "Unknown Artist") when it is absent or is the empty
    string. *)
Theorem mapSpotifyData_normalizes (t : Track) :
  mapSpotifyData (js_of_track t) = Ok (normalization t).
Proof.
  unfold mapSpotifyData, normalization.
  rewrite get_track_external_urls, get_track_name, get_track_album, get_track_artists.
  cbn [bind Res_Monad nullish array_map].
  rewrite map_elems_names. cbn [bind Res_Monad].
  rewrite join_strings. cbn [bind Res_Monad].
  rewrite !or_else_string.
  destruct (external_url t) as [u | ]; destruct (images (album t)) as [ | i rest]; cbn;
    rewrite ?or_else_string; reflexivity.
Qed.

(** C5 (as stated) fails on a track whose only artist has an empty name:
    the list of artists is not empty, and the artist is "Unknown Artist". *)
Lemma empty_artist_name_is_unknown_artist :
  mapSpotifyData (js_of_track nameless_artist)
  <> Ok (normalization_as_specified nameless_artist).
Proof. vm_compute. discriminate. Qed.

(** Where no text is empty the two readings agree. *)
Lemma normalization_as_specified_when_nonempty (t : Track) :
  external_url t <> Some "" ->
  (forall i rest, images (album t) = i :: rest -> url i <> "") ->
  (artists t <> [] -> String.concat ", " (map name (artists t)) <> "") ->
  normalization t = normalization_as_specified t.
Proof.
  destruct t as [[pictures] performers link title0]. cbn.
  intros Hlink Himage Hartist.
  unfold normalization, normalization_as_specified, nonempty_or. cbn.
  f_equal.
  - destruct link as [u | ]; [ | reflexivity ].
    destruct (String.eqb_spec u ""); [ subst; congruence | reflexivity ].
  - destruct pictures as [ | i rest]; [ reflexivity | ].
    destruct (String.eqb_spec (url i) ""); [ | reflexivity ].
    exfalso. exact (Himage i rest eq_refl e).
  - destruct performers as [ | a l]; [ reflexivity | ].
    destruct (String.eqb_spec (String.concat ", " (map name (a :: l))) "");
      [ | reflexivity ].
    exfalso. apply Hartist; [ discriminate | assumption ].
Qed.

(** ** Token acquisition *)

Ltac token_cases :=
  repeat split; intros;
  repeat match goal with H : exists _, _ |- _ => destruct H end;
  try congruence; eauto;
  try (eexists _, _; reflexivity).

(** C7 (as amended). [getAccessToken] raises exactly when a credential is
    absent or empty, the request fails, the response is not successful, the
    body cannot be parsed, its [error] property cannot be read, or that
    property is truthy.  With an absent credential it raises before any
    request is sent; when it does not raise it returns the parsed body. *)
Theorem getAccessToken_raises_iff (env : ProcessEnv) (upstream : Upstream) (st : State) :
  let reply := upstream (sent st) (token_request env) in
  (raises (getAccessToken env upstream) st <-> token_failure env reply = true)
  /\ (credential_absent env = true ->
      getAccessToken env upstream st
      = (Throw (Error "Missing Spotify credentials in environment variables"), st))
  /\ (token_failure env reply = false ->
      exists response body,
        settled reply = Resolves response
        /\ json response = Ok body
        /\ fst (getAccessToken env upstream st) = Ok body).
Proof.
  unfold getAccessToken, token_failure, credential_absent, token_request, raises.
  destruct (missing (SPOTIFY_CLIENT_ID env) || missing (SPOTIFY_CLIENT_SECRET env)
            || missing (SPOTIFY_REFRESH_TOKEN env)) eqn:Hmissing; cbn [orb].
  { cbn. token_cases. }
  cbn [bind Async_Monad]. unfold fetch.
  destruct (settled (upstream (sent st) _)) as [response | e] eqn:Hsettled; cbn [orb].
  2:{ token_cases. }
  destruct (ok response) eqn:Hok; cbn [negb orb].
  2:{ cbn. token_cases. }
  unfold lift at 1.
  destruct (json response) as [body | e] eqn:Hjson.
  2:{ token_cases. }
  unfold lift at 1.
  destruct (get body "error") as [error | e] eqn:Herror.
  2:{ token_cases. }
  destruct (truthy error) eqn:Htruthy.
  - unfold lift, throw. cbn. rewrite ?Herror, ?Htruthy.
    destruct (get body "error_description") as [description | e]; cbn;
      [ destruct (ToString (or_else description error)) | ];
      token_cases.
  - cbn. rewrite ?Herror, ?Htruthy. cbn. token_cases.
Qed.

Lemma getAccessToken_raises_iff_witness :
  getAccessToken no_credentials playing (loaded 0)
  = (Throw (Error "Missing Spotify credentials in environment variables"), loaded 0)
  /\ exists response body,
      settled (playing [] (token_request configured)) = Resolves response
      /\ json response = Ok body
      /\ fst (getAccessToken configured playing (loaded 0)) = Ok body.
Proof.
  split.
  - apply (getAccessToken_raises_iff no_credentials playing (loaded 0)). reflexivity.
  - apply (getAccessToken_raises_iff configured playing (loaded 0)). reflexivity.
Defined.

(** C7 (as stated) fails when the token endpoint answers 200 with a body
    that is not JSON: every credential is present, the response is
    successful, no parsed body carries an error, and the call raises. *)
Lemma garbled_token_body_raises :
  ~ raises_as_specified configured garbled_token (loaded 0).
Proof.
  unfold raises_as_specified. intros [Honly _].
  assert (Hraises : raises (getAccessToken configured garbled_token) (loaded 0)).
  { eexists _, _. reflexivity. }
  apply Honly in Hraises. discriminate Hraises.
Qed.

(** ** A payload without a track is handled like 204 No Content *)

Lemma getAccessToken_with_no_content (env : ProcessEnv) (upstream : Upstream) :
  getAccessToken env (with_no_content upstream) = getAccessToken env upstream.
Proof. reflexivity. Qed.

Lemma getRecentlyPlayed_with_no_content (upstream : Upstream) (token : JsVal) :
  getRecentlyPlayed (with_no_content upstream) token = getRecentlyPlayed upstream token.
Proof. reflexivity. Qed.




Lemma get_field (v : JsVal) (k : string) :
  nullish v = false -> get v k = Ok (field v k).
Proof. unfold field. destruct v; cbn; try discriminate; intros _; try reflexivity;
         destruct (k =? "length")%string; reflexivity. Qed.





(** A payload of [null] has no property to read: the test throws. *)
Lemma no_track_null : no_track JNull = Throw TypeError.
Proof. reflexivity. Qed.


(** * Further properties of the service and of its callers *)

(** ** The requests a call sends *)

Lemma keeps_sent_ret {A : Type} (a : A) : keeps_sent (ret a).
Proof. intro st. reflexivity. Qed.

Lemma keeps_sent_lift {A : Type} (r : Res A) : keeps_sent (lift r).
Proof. intro st. reflexivity. Qed.

Lemma keeps_sent_throw {A : Type} (e : Exn) : keeps_sent (@throw A e).
Proof. intro st. reflexivity. Qed.

Lemma keeps_sent_console_error (label : string) (e : Exn) :
  keeps_sent (console_error label e).
Proof. intro st. reflexivity. Qed.

Lemma keeps_sent_bind {A B : Type} (c : Async A) (k : A -> Async B) :
  keeps_sent c -> (forall a, keeps_sent (k a)) -> keeps_sent (bind c k).
Proof.
  intros Hc Hk st. cbn.
  specialize (Hc st).
  destruct (c st) as [[a | e] st1]; cbn in *.
  - rewrite Hk. exact Hc.
  - exact Hc.
Qed.

Lemma keeps_sent_try_catch {A : Type} (body : Async A) (handler : Exn -> Async A) :
  keeps_sent body -> (forall e, keeps_sent (handler e)) ->
  keeps_sent (try_catch body handler).
Proof.
  intros Hb Hh st. unfold try_catch.
  specialize (Hb st).
  destruct (body st) as [[a | e] st1]; cbn in *.
  - exact Hb.
  - rewrite Hh. exact Hb.
Qed.

Ltac keeps_sent_step :=
  match goal with
  | |- keeps_sent (bind _ _) => apply keeps_sent_bind; [ | intro ]
  | |- keeps_sent (try_catch _ _) => apply keeps_sent_try_catch; [ | intro ]
  | |- keeps_sent (ret _) => apply keeps_sent_ret
  | |- keeps_sent (lift _) => apply keeps_sent_lift
  | |- keeps_sent (throw _) => apply keeps_sent_throw
  | |- keeps_sent (console_error _ _) => apply keeps_sent_console_error
  | |- keeps_sent read_cache => intro; reflexivity
  | |- keeps_sent Date_now => intro; reflexivity
  | |- keeps_sent (write_cache _) => intro; reflexivity
  | |- keeps_sent (if ?b then _ else _) => destruct b
  | |- keeps_sent (match ?o with Some _ => _ | None => _ end) => destruct o
  end.

Lemma keeps_sent_getCachedData : keeps_sent getCachedData.
Proof. unfold getCachedData. repeat keeps_sent_step. Qed.

Lemma keeps_sent_setCachedData (d : SpotifyData) : keeps_sent (setCachedData d).
Proof. unfold setCachedData. repeat keeps_sent_step. Qed.

Lemma keeps_sent_getSpotifyData_catch (e : Exn) : keeps_sent (getSpotifyData_catch e).
Proof. unfold getSpotifyData_catch. repeat keeps_sent_step. Qed.

Lemma bind_lift_ok {A B : Type} (a : A) (k : A -> Async B) (st : State) :
  bind (lift (Ok a)) k st = k a st.
Proof. reflexivity. Qed.

(** A request followed by steps that send nothing. *)
Lemma sent_fetch_then {A : Type} (upstream : Upstream) (req : Request)
      (k : Response -> Async A) (st : State) :
  (forall r, keeps_sent (k r)) ->
  sent (snd (bind (fetch upstream req) k st)) = (sent st ++ [req])%list.
Proof.
  intro Hk. cbn. unfold fetch.
  destruct (settled (upstream (sent st) req)) as [r | e]; cbn.
  - rewrite Hk. reflexivity.
  - reflexivity.
Qed.

Lemma getAccessToken_missing (env : ProcessEnv) (upstream : Upstream) (st : State) :
  credential_absent env = true ->
  getAccessToken env upstream st
  = (Throw (Error "Missing Spotify credentials in environment variables"), st).
Proof.
  unfold credential_absent, getAccessToken. intros ->. reflexivity.
Qed.

Lemma getAccessToken_sent (env : ProcessEnv) (upstream : Upstream) (st : State) :
  sent (snd (getAccessToken env upstream st))
  = (sent st ++ (if credential_absent env then [] else [token_request env]))%list.
Proof.
  unfold credential_absent, getAccessToken, token_request.
  destruct (missing (SPOTIFY_CLIENT_ID env) || missing (SPOTIFY_CLIENT_SECRET env)
            || missing (SPOTIFY_REFRESH_TOKEN env)).
  - cbn. rewrite app_nil_r. reflexivity.
  - apply sent_fetch_then. intro r. repeat keeps_sent_step.
Qed.

Lemma getNowPlayingResponse_sent (upstream : Upstream) (token : JsVal) (st : State) :
  sent (snd (getNowPlayingResponse upstream token st))
  = (sent st ++ match getAccessTokenHeader token with
                | Ok header => [CurrentlyPlaying header]
                | Throw _ => []
                end)%list.
Proof.
  unfold getNowPlayingResponse. cbn [bind Async_Monad]. unfold lift.
  destruct (getAccessTokenHeader token) as [header | e].
  - unfold fetch. destruct (settled _); reflexivity.
  - cbn. rewrite app_nil_r. reflexivity.
Qed.

Lemma getRecentlyPlayed_sent (upstream : Upstream) (token : JsVal) (st : State) :
  sent (snd (getRecentlyPlayed upstream token st))
  = (sent st ++ match getAccessTokenHeader token with
                | Ok header => [RecentlyPlayed header]
                | Throw _ => []
                end)%list.
Proof.
  unfold getRecentlyPlayed.
  destruct (getAccessTokenHeader token) as [header | e].
  - unfold try_catch.
    match goal with
    | |- sent (snd (match ?body st with _ => _ end)) = _ =>
        assert (Hbody : sent (snd (body st)) = (sent st ++ [RecentlyPlayed header])%list);
        [ | destruct (body st) as [[r | e] st1]; cbn in *; exact Hbody ]
    end.
    rewrite bind_lift_ok.
    apply sent_fetch_then. intro r. repeat keeps_sent_step.
  - cbn. rewrite app_nil_r. reflexivity.
Qed.

Lemma bind_run {A B : Type} (c : Async A) (k : A -> Async B) (st : State) :
  bind c k st
  = match c st with
    | (Ok a, st') => k a st'
    | (Throw e, st') => (Throw e, st')
    end.
Proof. reflexivity. Qed.

Ltac sequence_cases :=
  unfold request_sequence;
  first [ left; reflexivity
        | right; left; reflexivity
        | right; right; eexists; left; reflexivity
        | right; right; eexists; right; reflexivity ].

(** The requests of a refresh. *)
Lemma refresh_requests (env : ProcessEnv) (upstream : Upstream) (st : State) :
  exists l,
    sent (snd (refresh env upstream st)) = (sent st ++ l)%list
    /\ request_sequence env l
    /\ if credential_absent env then l = [] else exists rest, l = token_request env :: rest.
Proof.
  unfold refresh. rewrite bind_run.
  pose proof (getAccessToken_sent env upstream st) as Htoken.
  destruct (getAccessToken env upstream st) as [[tokenData | e] st1] eqn:Hrun;
    cbn [snd] in Htoken.
  2:{ exists (if credential_absent env then [] else [token_request env]).
      split; [ exact Htoken | ].
      destruct (credential_absent env); split; eauto; sequence_cases. }
  destruct (credential_absent env) eqn:Habsent.
  { rewrite (getAccessToken_missing env upstream st Habsent) in Hrun. discriminate. }
  rewrite bind_run. unfold lift at 1.
  destruct (get tokenData "access_token") as [token | e].
  2:{ exists [token_request env]. cbn [snd]. repeat split; eauto; sequence_cases. }
  destruct (truthy token); cbn [negb].
  2:{ exists [token_request env]. cbn [snd throw]. repeat split; eauto; sequence_cases. }
  rewrite bind_run.
  pose proof (getNowPlayingResponse_sent upstream token st1) as Hprimary.
  pose proof (getRecentlyPlayed_sent upstream token) as Hfallback.
  destruct (getAccessTokenHeader token) as [header | e] eqn:Hheader.
  2:{ unfold getNowPlayingResponse. rewrite bind_run. unfold lift at 1.
      rewrite Hheader.
      exists [token_request env]. cbn [snd]. split; [ exact Htoken | ].
      split; eauto; sequence_cases. }
  destruct (getNowPlayingResponse upstream token st1) as [[response | e'] st2];
    cbn [snd] in Hprimary.
  2:{ exists [token_request env; CurrentlyPlaying header]. cbn [snd].
      split; [ rewrite Hprimary, Htoken, <- app_assoc; reflexivity | ].
      split; eauto; sequence_cases. }
  assert (Hhere : sent st2 = (sent st ++ [token_request env; CurrentlyPlaying header])%list)
    by (rewrite Hprimary, Htoken, <- app_assoc; reflexivity).
  assert (Hdelegate :
            exists l,
              sent (snd ((recentData <- getRecentlyPlayed upstream token ;;
                          setCachedData recentData ;;; ret recentData) st2))
              = (sent st ++ l)%list
              /\ request_sequence env l /\ exists rest, l = token_request env :: rest).
  { rewrite bind_run. specialize (Hfallback st2).
    destruct (getRecentlyPlayed upstream token st2) as [[recent | e''] st3];
      cbn [snd] in Hfallback;
      exists [token_request env; CurrentlyPlaying header; RecentlyPlayed header];
      (split; [ cbn; rewrite Hfallback, Hhere, <- app_assoc; reflexivity
              | split; eauto; sequence_cases ]). }
  assert (Hstop : forall (r : Res SpotifyData),
             exists l,
               sent (snd (r, st2)) = (sent st ++ l)%list
               /\ request_sequence env l /\ exists rest, l = token_request env :: rest).
  { intro r. exists [token_request env; CurrentlyPlaying header].
    split; [ exact Hhere | split; eauto; sequence_cases ]. }
  destruct (status response =? 204); [ exact Hdelegate | ].
  destruct (status response =? 401); [ apply Hstop | ].
  destruct (status response =? 403); [ apply Hstop | ].
  destruct (status response =? 429); [ apply Hstop | ].
  destruct (negb (ok response)); [ apply Hstop | ].
  rewrite bind_run. unfold lift at 1.
  destruct (json response) as [data | e]; [ | apply Hstop ].
  rewrite bind_run. unfold lift at 1.
  destruct (no_track data) as [[ | ] | e]; [ exact Hdelegate | | apply Hstop ].
  rewrite bind_run. unfold lift at 1.
  destruct (get data "is_playing") as [flag | e]; [ | apply Hstop ].
  rewrite bind_run. unfold lift at 1.
  destruct (get data "item") as [item | e]; [ | apply Hstop ].
  rewrite bind_run. unfold lift at 1.
  destruct (mapSpotifyData item) as [mapped | e]; [ | apply Hstop ].
  cbn. apply (Hstop (Ok (spread flag mapped))).
Qed.

Lemma getCachedData_returns (st : State) :
  exists o st0, getCachedData st = (Ok o, st0).
Proof.
  unfold getCachedData, read_cache. cbn.
  destruct (cache st) as [entry | ]; cbn; [ | eauto ].
  destruct (clock st - timestamp entry >? CACHE_DURATION); cbn; eauto.
Qed.

Lemma getSpotifyData_requests (env : ProcessEnv) (upstream : Upstream) (st : State) :
  exists l,
    sent (snd (getSpotifyData env upstream st)) = (sent st ++ l)%list
    /\ request_sequence env l
    /\ match fst (getCachedData st) with
       | Ok (Some _) => l = []
       | _ => if credential_absent env then l = []
              else exists rest, l = token_request env :: rest
       end.
Proof.
  unfold getSpotifyData, try_catch, getSpotifyData_try. rewrite bind_run.
  pose proof (keeps_sent_getCachedData st) as Hcheck.
  destruct (getCachedData_returns st) as (o & st0 & Hrun).
  rewrite Hrun in *. cbn [fst snd] in *.
  destruct o as [d | ].
  - exists []. cbn. rewrite app_nil_r. split; [ exact Hcheck | ].
    split; [ sequence_cases | reflexivity ].
  - destruct (refresh_requests env upstream st0) as (l & Hl & Hseq & Hfirst).
    exists l. split; [ | split; assumption ].
    destruct (refresh env upstream st0) as [[r | e] st1]; cbn [snd] in *.
    + congruence.
    + rewrite keeps_sent_getSpotifyData_catch. congruence.
Qed.

(** X1. One call sends at most three requests, in a fixed order: nothing,
    or the token request, then the primary lookup, then the fallback lookup
    with the same header as the primary lookup. *)
Theorem getSpotifyData_request_sequence
        (env : ProcessEnv) (upstream : Upstream) (st : State) :
  exists l,
    sent (snd (getSpotifyData env upstream st)) = (sent st ++ l)%list
    /\ request_sequence env l.
Proof.
  destruct (getSpotifyData_requests env upstream st) as (l & Hl & Hseq & _).
  exists l. split; assumption.
Qed.

(** X2. With a credential absent or empty the call is decided by the
    cache alone and sends no request: an entry within the freshness window
    is returned and the state is unchanged; otherwise the hard-coded record
    is returned, the cache is left empty and the missing credentials are
    written to the console. *)
Theorem unconfigured_call_is_decided_by_the_cache
        (env : ProcessEnv) (upstream : Upstream) (st : State) :
  credential_absent env = true ->
  getSpotifyData env upstream st
  = match cache st with
    | Some entry =>
        if age st entry >? 15000
        then (Ok unavailable,
              logged "Spotify API error:"
                     (Error "Missing Spotify credentials in environment variables")
                     (expired st))
        else (Ok (data entry), st)
    | None =>
        (Ok unavailable,
         logged "Spotify API error:"
                (Error "Missing Spotify credentials in environment variables")
                (expired st))
    end.
Proof.
  intro Habsent.
  assert (Hfails : forall st0, cache st0 = None ->
             getSpotifyData_catch
               (Error "Missing Spotify credentials in environment variables") st0
             = (Ok unavailable,
                logged "Spotify API error:"
                       (Error "Missing Spotify credentials in environment variables")
                       (expired st0))).
  { intros st0 Hnone. unfold getSpotifyData_catch, console_error, read_cache. cbn.
    rewrite Hnone. reflexivity. }
  unfold getSpotifyData, try_catch, getSpotifyData_try. rewrite bind_run.
  destruct (cache st) as [entry | ] eqn:Hc.
  - change 15000 with CACHE_DURATION.
    destruct (Z.gtb_spec (age st entry) CACHE_DURATION) as [Hold | Hfresh].
    + rewrite (getCachedData_expired st Hc) by lia.
      unfold refresh. rewrite bind_run.
      rewrite (getAccessToken_missing env upstream (expired st) Habsent).
      rewrite Hfails by reflexivity. reflexivity.
    + rewrite (getCachedData_fresh st Hc Hfresh). reflexivity.
  - rewrite (getCachedData_empty st Hc).
    unfold refresh. rewrite bind_run.
    rewrite (getAccessToken_missing env upstream st Habsent).
    rewrite Hfails by exact Hc. reflexivity.
Qed.

Lemma unconfigured_call_is_decided_by_the_cache_witness :
  getSpotifyData no_credentials playing (cached_for 9000)
  = (Ok earlier, cached_for 9000)
  /\ getSpotifyData no_credentials playing (cached_for 20000)
     = (Ok unavailable,
        mkState None 20000 []
                [("Spotify API error:",
                  Error "Missing Spotify credentials in environment variables")])
  /\ getSpotifyData no_credentials playing (loaded 0)
     = (Ok unavailable,
        mkState None 0 []
                [("Spotify API error:",
                  Error "Missing Spotify credentials in environment variables")]).
Proof.
  split; [ | split ].
  - apply (@unconfigured_call_is_decided_by_the_cache
             no_credentials playing (cached_for 9000)). reflexivity.
  - apply (@unconfigured_call_is_decided_by_the_cache
             no_credentials playing (cached_for 20000)). reflexivity.
  - apply (@unconfigured_call_is_decided_by_the_cache
             no_credentials playing (loaded 0)). reflexivity.
Defined.

(** X3. A call that misses the cache with every credential present asks
    for a token first, whatever it did before: no token is kept from one
    call to the next. *)
Theorem every_miss_asks_for_a_token
        (env : ProcessEnv) (upstream : Upstream) (st st0 : State) :
  getCachedData st = (Ok None, st0) ->
  credential_absent env = false ->
  exists rest,
    sent (snd (getSpotifyData env upstream st))
    = (sent st ++ token_request env :: rest)%list.
Proof.
  intros Hmiss Hpresent.
  destruct (getSpotifyData_requests env upstream st) as (l & Hl & _ & Hfirst).
  rewrite Hmiss, Hpresent in Hfirst. cbn in Hfirst.
  destruct Hfirst as (rest & ->). exists rest. exact Hl.
Qed.

Lemma every_miss_asks_for_a_token_witness :
  exists rest,
    sent (snd (getSpotifyData configured playing (cached_for 15001)))
    = ([] ++ token_request configured :: rest)%list.
Proof.
  apply (@every_miss_asks_for_a_token configured playing (cached_for 15001)
                                      (expired (cached_for 15001)));
    reflexivity.
Defined.

(** ** The outcomes of the primary lookup *)

Lemma mapSpotifyData_of_track (t : Track) :
  mapSpotifyData (js_of_track t) = Ok (normalization t).
Proof.
  unfold mapSpotifyData, normalization.
  rewrite get_track_external_urls, get_track_name, get_track_album, get_track_artists.
  cbn [bind Res_Monad nullish array_map].
  rewrite map_elems_names. cbn [bind Res_Monad].
  rewrite join_strings. cbn [bind Res_Monad].
  rewrite !or_else_string.
  destruct (external_url t) as [u | ]; destruct (images (album t)) as [ | i rest]; cbn;
    rewrite ?or_else_string; reflexivity.
Qed.

Lemma no_track_of_track (props : list (string * JsVal)) (t : Track) :
  lookup "item" props = js_of_track t ->
  track_name t <> "" ->
  lookup "currently_playing_type" props = JStr "track" ->
  no_track (JObj props) = Ok false.
Proof.
  intros Hitem Hname Htype. unfold no_track. cbn [get bind Res_Monad].
  rewrite Hitem. change (truthy (js_of_track t)) with true. cbn [negb].
  rewrite get_track_name. cbn [bind Res_Monad truthy].
  destruct (String.eqb_spec (track_name t) ""); [ contradiction | ]. cbn [negb].
  rewrite get_track_artists. cbn [bind Res_Monad truthy negb].
  rewrite Htype. reflexivity.
Qed.

(** X4. When the primary lookup answers 200 with a track of the declared
    shape, a non-empty name and the type "track", the call returns the
    normalised track with the [is_playing] value of the payload, stores it,
    and sends nothing to the recently-played endpoint. *)
Theorem playing_track_is_returned_and_stored
        (env : ProcessEnv) (upstream : Upstream) (st st0 st1 st2 : State)
        (tokenData token : JsVal) (response : Response)
        (props : list (string * JsVal)) (t : Track) :
  getCachedData st = (Ok None, st0) ->
  getAccessToken env upstream st0 = (Ok tokenData, st1) ->
  get tokenData "access_token" = Ok token -> truthy token = true ->
  getNowPlayingResponse upstream token st1 = (Ok response, st2) ->
  status response = 200 ->
  json response = Ok (JObj props) ->
  lookup "item" props = js_of_track t ->
  track_name t <> "" ->
  lookup "currently_playing_type" props = JStr "track" ->
  getSpotifyData env upstream st
  = (Ok (spread (lookup "is_playing" props) (normalization t)),
     stored (spread (lookup "is_playing" props) (normalization t)) st2).
Proof.
  intros Hmiss Htoken Haccess Htruthy Hresponse Hstatus Hjson Hitem Hname Htype.
  unfold getSpotifyData, try_catch, getSpotifyData_try. rewrite bind_run, Hmiss.
  unfold refresh. rewrite bind_run, Htoken.
  rewrite bind_run. unfold lift at 1. rewrite Haccess, Htruthy. cbn [negb].
  rewrite bind_run, Hresponse.
  unfold ok. rewrite Hstatus. cbn [Z.eqb Pos.eqb Z.leb Z.compare Pos.compare Pos.compare_cont andb negb].
  rewrite bind_run. unfold lift at 1. rewrite Hjson.
  rewrite bind_run. unfold lift at 1. rewrite (no_track_of_track _ Hitem Hname Htype).
  rewrite bind_run. unfold lift at 1. cbn [get].
  rewrite bind_run. unfold lift at 1. rewrite Hitem.
  rewrite bind_run. unfold lift at 1. rewrite mapSpotifyData_of_track.
  reflexivity.
Qed.

Lemma playing_track_is_returned_and_stored_witness :
  getSpotifyData configured playing (loaded 0)
  = (Ok (spread (JBool true) (normalization one_track)),
     stored (spread (JBool true) (normalization one_track))
            (mkState None 90 [token_request configured; CurrentlyPlaying "Bearer t0ken"] [])).
Proof.
  apply (@playing_track_is_returned_and_stored
           configured playing (loaded 0) (loaded 0)
           (mkState None 40 [token_request configured] [])
           (mkState None 90 [token_request configured; CurrentlyPlaying "Bearer t0ken"] [])
           (JObj [("access_token", JStr "t0ken")]) (JStr "t0ken")
           (mkResponse 200
              (Ok (JObj [("is_playing", JBool true);
                         ("currently_playing_type", JStr "track");
                         ("item", js_of_track one_track)])))
           [("is_playing", JBool true);
            ("currently_playing_type", JStr "track");
            ("item", js_of_track one_track)]
           one_track);
    try reflexivity.
  discriminate.
Defined.

(** X5. When the primary lookup answers with a status that is neither 204
    nor successful (401, 403, 429 or any other), the call returns the
    hard-coded record, leaves the cache empty, sends nothing to the
    recently-played endpoint and writes one error to the console. *)
Theorem failed_primary_lookup_is_not_recovered
        (env : ProcessEnv) (upstream : Upstream) (st st0 st1 st2 : State)
        (tokenData token : JsVal) (response : Response) :
  getCachedData st = (Ok None, st0) ->
  getAccessToken env upstream st0 = (Ok tokenData, st1) ->
  get tokenData "access_token" = Ok token -> truthy token = true ->
  getNowPlayingResponse upstream token st1 = (Ok response, st2) ->
  status response <> 204 -> ok response = false ->
  exists message,
    getSpotifyData env upstream st
    = (Ok unavailable,
       mkState None (clock st2) (sent st2)
               (console st2 ++ [("Spotify API error:", Error message)])).
Proof.
  intros Hmiss Htoken Haccess Htruthy Hresponse Hstatus Hok.
  assert (Hnone : cache st2 = None).
  { pose proof (keeps_getNowPlayingResponse upstream token st1) as H2.
    pose proof (keeps_getAccessToken env upstream st0) as H1.
    rewrite Hresponse in H2. rewrite Htoken in H1. cbn in H1, H2.
    rewrite H2, H1. exact (getCachedData_miss _ Hmiss). }
  assert (Hcatch : forall message,
             getSpotifyData_catch (Error message) st2
             = (Ok unavailable,
                mkState None (clock st2) (sent st2)
                        (console st2 ++ [("Spotify API error:", Error message)]))).
  { intro message. unfold getSpotifyData_catch, console_error, read_cache. cbn.
    rewrite Hnone. reflexivity. }
  unfold getSpotifyData, try_catch, getSpotifyData_try. rewrite bind_run, Hmiss.
  unfold refresh. rewrite bind_run, Htoken.
  rewrite bind_run. unfold lift at 1. rewrite Haccess, Htruthy. cbn [negb].
  rewrite bind_run, Hresponse.
  destruct (Z.eqb_spec (status response) 204) as [ | _]; [ contradiction | ].
  rewrite Hok. cbn [negb].
  destruct (status response =? 401); [ eexists; apply Hcatch | ].
  destruct (status response =? 403); [ eexists; apply Hcatch | ].
  destruct (status response =? 429); [ eexists; apply Hcatch | ].
  eexists. apply Hcatch.
Qed.

Lemma failed_primary_lookup_is_not_recovered_witness :
  exists message,
    getSpotifyData configured unauthorized (loaded 0)
    = (Ok unavailable,
       mkState None 90 [token_request configured; CurrentlyPlaying "Bearer t0ken"]
               [("Spotify API error:", Error message)]).
Proof.
  apply (@failed_primary_lookup_is_not_recovered
           configured unauthorized (loaded 0) (loaded 0)
           (mkState None 40 [token_request configured] [])
           (mkState None 90 [token_request configured; CurrentlyPlaying "Bearer t0ken"] [])
           (JObj [("access_token", JStr "t0ken")]) (JStr "t0ken")
           (mkResponse 401 (Ok (JObj [("error", JStr "expired")]))));
    try reflexivity.
  discriminate.
Defined.

(** X6. When the token endpoint answers without a usable [access_token],
    the call sends nothing after the token request and returns the
    hard-coded record, with "Failed to get access token" on the console. *)
Theorem missing_access_token_stops_the_call
        (env : ProcessEnv) (upstream : Upstream) (st st0 st1 : State)
        (tokenData token : JsVal) :
  getCachedData st = (Ok None, st0) ->
  getAccessToken env upstream st0 = (Ok tokenData, st1) ->
  get tokenData "access_token" = Ok token -> truthy token = false ->
  getSpotifyData env upstream st
  = (Ok unavailable,
     mkState None (clock st1) (sent st1)
             (console st1 ++ [("Spotify API error:", Error "Failed to get access token")])).
Proof.
  intros Hmiss Htoken Haccess Hfalsy.
  assert (Hnone : cache st1 = None).
  { pose proof (keeps_getAccessToken env upstream st0) as H1.
    rewrite Htoken in H1. cbn in H1. rewrite H1. exact (getCachedData_miss _ Hmiss). }
  unfold getSpotifyData, try_catch, getSpotifyData_try. rewrite bind_run, Hmiss.
  unfold refresh. rewrite bind_run, Htoken.
  rewrite bind_run. unfold lift at 1. rewrite Haccess, Hfalsy. cbn [negb throw].
  unfold getSpotifyData_catch, console_error, read_cache. cbn.
  rewrite Hnone. reflexivity.
Qed.

Lemma missing_access_token_stops_the_call_witness :
  getSpotifyData configured no_token (loaded 0)
  = (Ok unavailable,
     mkState None 40 [token_request configured]
             [("Spotify API error:", Error "Failed to get access token")]).
Proof.
  apply (@missing_access_token_stops_the_call
           configured no_token (loaded 0) (loaded 0)
           (mkState None 40 [token_request configured] [])
           (JObj [("token_type", JStr "Bearer")]) JUndefined);
    reflexivity.
Defined.

(** ** Token acquisition and the fallback lookup *)

(** X7. An error reported in a successful token response is raised with
    its description, or with the error code when the description is absent
    or empty; the token request is the only request sent. *)
Theorem in_band_token_error_is_raised_with_its_description
        (env : ProcessEnv) (upstream : Upstream) (st st1 : State)
        (response : Response) (props : list (string * JsVal))
        (code : string) (description : option string) :
  credential_absent env = false ->
  fetch upstream (token_request env) st = (Ok response, st1) ->
  ok response = true ->
  json response = Ok (JObj props) ->
  lookup "error" props = JStr code -> code <> "" ->
  lookup "error_description" props
  = match description with Some d => JStr d | None => JUndefined end ->
  getAccessToken env upstream st
  = (Throw (Error ("Spotify auth error: "
                   ++ match description with
                      | Some d => if (d =? "")%string then code else d
                      | None => code
                      end)),
     st1).
Proof.
  intros Hpresent Hfetch Hok Hjson Herror Hcode Hdescription.
  unfold getAccessToken. unfold credential_absent in Hpresent. rewrite Hpresent.
  fold (token_request env). rewrite bind_run, Hfetch, Hok. cbn [negb].
  rewrite bind_run. unfold lift at 1. rewrite Hjson.
  rewrite bind_run. unfold lift at 1. cbn [get]. rewrite Herror. cbn [truthy].
  destruct (String.eqb_spec code ""); [ contradiction | ]. cbn [negb].
  rewrite bind_run. unfold lift at 1. rewrite Hdescription.
  rewrite bind_run. unfold lift at 1.
  rewrite bind_run. unfold lift at 1.
  destruct description as [d | ]; [ | reflexivity ].
  rewrite or_else_string. unfold nonempty_or.
  destruct (d =? "")%string; reflexivity.
Qed.

Lemma in_band_token_error_is_raised_with_its_description_witness :
  getAccessToken configured invalid_grant (loaded 0)
  = (Throw (Error "Spotify auth error: Refresh token revoked"),
     mkState None 40 [token_request configured] []).
Proof.
  apply (@in_band_token_error_is_raised_with_its_description
           configured invalid_grant (loaded 0)
           (mkState None 40 [token_request configured] [])
           (mkResponse 200
              (Ok (JObj [("error", JStr "invalid_grant");
                         ("error_description", JStr "Refresh token revoked")])))
           [("error", JStr "invalid_grant");
            ("error_description", JStr "Refresh token revoked")]
           "invalid_grant" (Some "Refresh token revoked"));
    try reflexivity.
  discriminate.
Defined.

(** X8. With an empty history, a recently-played body whose [items] is
    missing, falsy or the empty array, the fallback lookup returns the "No
    Recent Tracks" record and writes nothing to the console. *)
Theorem empty_history_returns_no_recent_tracks
        (upstream : Upstream) (token body : JsVal) (header : string)
        (st st1 : State) (response : Response) :
  getAccessTokenHeader token = Ok header ->
  fetch upstream (RecentlyPlayed header) st = (Ok response, st1) ->
  ok response = true ->
  json response = Ok body -> nullish body = false ->
  truthy (field body "items") = false \/ field body "items" = JArr [] ->
  getRecentlyPlayed upstream token st = (Ok no_recent_tracks, st1).
Proof.
  intros Hheader Hfetch Hok Hjson Hbody Hitems.
  unfold getRecentlyPlayed, try_catch.
  rewrite bind_run. unfold lift at 1. rewrite Hheader.
  rewrite bind_run, Hfetch, Hok. cbn [negb].
  rewrite bind_run. unfold lift at 1. rewrite Hjson.
  rewrite bind_run. unfold lift at 1. rewrite (get_field body "items" Hbody).
  rewrite bind_run.
  destruct Hitems as [Hfalsy | Hempty].
  - rewrite Hfalsy. reflexivity.
  - rewrite Hempty. reflexivity.
Qed.

Lemma empty_history_returns_no_recent_tracks_witness :
  getRecentlyPlayed no_history (JStr "t0ken") (loaded 0)
  = (Ok no_recent_tracks, mkState None 60 [RecentlyPlayed "Bearer t0ken"] []).
Proof.
  apply (@empty_history_returns_no_recent_tracks
           no_history (JStr "t0ken") (JObj [("items", JArr [])]) "Bearer t0ken"
           (loaded 0) (mkState None 60 [RecentlyPlayed "Bearer t0ken"] [])
           (mkResponse 200 (Ok (JObj [("items", JArr [])]))));
    try reflexivity.
  right. reflexivity.
Defined.

(** X9. When the recently-played request fails, answers with an
    unsuccessful status or with a body that cannot be parsed, the fallback
    lookup returns the "Recent tracks unavailable" record and writes the
    error to the console. *)
Theorem failed_fallback_returns_its_placeholder
        (upstream : Upstream) (token : JsVal) (header : string) (st st1 : State) :
  getAccessTokenHeader token = Ok header ->
  (forall e,
      fetch upstream (RecentlyPlayed header) st = (Throw e, st1) ->
      getRecentlyPlayed upstream token st
      = (Ok recent_tracks_unavailable, logged "Recently played error:" e st1))
  /\ (forall response,
         fetch upstream (RecentlyPlayed header) st = (Ok response, st1) ->
         ok response = false ->
         getRecentlyPlayed upstream token st
         = (Ok recent_tracks_unavailable,
            logged "Recently played error:"
                   (Error ("Recently played API error: " ++ string_of_Z (status response)))
                   st1))
  /\ (forall response e,
         fetch upstream (RecentlyPlayed header) st = (Ok response, st1) ->
         ok response = true -> json response = Throw e ->
         getRecentlyPlayed upstream token st
         = (Ok recent_tracks_unavailable, logged "Recently played error:" e st1)).
Proof.
  intro Hheader.
  repeat split; intros;
    unfold getRecentlyPlayed, try_catch;
    rewrite bind_run; unfold lift at 1; rewrite Hheader;
    rewrite bind_run;
    repeat match goal with
           | H : fetch _ _ _ = _ |- _ => rewrite H; clear H
           | H : ok _ = _ |- _ => rewrite H; clear H
           end;
    cbn [negb]; try reflexivity.
  rewrite bind_run. unfold lift at 1.
  match goal with H : json _ = _ |- _ => rewrite H end.
  reflexivity.
Qed.

Lemma failed_fallback_returns_its_placeholder_witness :
  getRecentlyPlayed unreachable (JStr "t0ken") (loaded 0)
  = (Ok recent_tracks_unavailable,
     logged "Recently played error:" (Failure "fetch failed")
            (mkState None 5 [RecentlyPlayed "Bearer t0ken"] []))
  /\ getRecentlyPlayed unauthorized (JStr "t0ken") (loaded 0)
     = (Ok recent_tracks_unavailable,
        logged "Recently played error:" (Error "Recently played API error: 401")
               (mkState None 50 [RecentlyPlayed "Bearer t0ken"] [])).
Proof.
  split.
  - apply (@failed_fallback_returns_its_placeholder
             unreachable (JStr "t0ken") "Bearer t0ken" (loaded 0)
             (mkState None 5 [RecentlyPlayed "Bearer t0ken"] []) eq_refl).
    reflexivity.
  - apply (proj1 (proj2 (@failed_fallback_returns_its_placeholder
             unauthorized (JStr "t0ken") "Bearer t0ken" (loaded 0)
             (mkState None 50 [RecentlyPlayed "Bearer t0ken"] []) eq_refl))
             (mkResponse 401 (Ok (JObj [("error", JStr "expired")]))));
      reflexivity.
Defined.

(** X10. With a non-empty history the fallback lookup returns the
    normalisation of the track of the first item, with [isPlaying = false];
    the items after the first are not read. *)
Theorem most_recent_track_is_returned
        (upstream : Upstream) (token body first : JsVal) (others : list JsVal)
        (header : string) (st st1 : State) (response : Response) (t : Track) :
  getAccessTokenHeader token = Ok header ->
  fetch upstream (RecentlyPlayed header) st = (Ok response, st1) ->
  ok response = true ->
  json response = Ok body -> nullish body = false ->
  field body "items" = JArr (first :: others) ->
  get first "track" = Ok (js_of_track t) ->
  getRecentlyPlayed upstream token st
  = (Ok (spread (JBool false) (normalization t)), st1).
Proof.
  intros Hheader Hfetch Hok Hjson Hbody Hitems Htrack.
  unfold getRecentlyPlayed, try_catch.
  rewrite bind_run. unfold lift at 1. rewrite Hheader.
  rewrite bind_run, Hfetch, Hok. cbn [negb].
  rewrite bind_run. unfold lift at 1. rewrite Hjson.
  rewrite bind_run. unfold lift at 1. rewrite (get_field body "items" Hbody), Hitems.
  rewrite bind_run. cbn [truthy negb].
  rewrite bind_run. unfold lift at 1. cbn [get String.eqb Ascii.eqb Bool.eqb].
  cbn [ret Async_Monad is_number List.length Z.of_nat Z.eqb].
  rewrite bind_run. unfold lift at 1.
  rewrite bind_run. unfold lift at 1. cbn [get_index nth].
  rewrite bind_run. unfold lift at 1. rewrite Htrack.
  rewrite bind_run. unfold lift at 1. rewrite mapSpotifyData_of_track.
  reflexivity.
Qed.

Lemma most_recent_track_is_returned_witness :
  getRecentlyPlayed two_recent (JStr "t0ken") (loaded 0)
  = (Ok (spread (JBool false) (normalization one_track)),
     mkState None 60 [RecentlyPlayed "Bearer t0ken"] []).
Proof.
  apply (@most_recent_track_is_returned
           two_recent (JStr "t0ken")
           (JObj [("items", JArr [JObj [("track", js_of_track one_track)];
                                  JObj [("track", js_of_track nameless_artist)]])])
           (JObj [("track", js_of_track one_track)])
           [JObj [("track", js_of_track nameless_artist)]]
           "Bearer t0ken" (loaded 0)
           (mkState None 60 [RecentlyPlayed "Bearer t0ken"] [])
           (mkResponse 200
              (Ok (JObj [("items", JArr [JObj [("track", js_of_track one_track)];
                                         JObj [("track", js_of_track nameless_artist)]])])))
           one_track);
    reflexivity.
Defined.

Lemma getAccessTokenHeader_text (text : string) :
  getAccessTokenHeader (JStr text) = Ok ("Bearer " ++ text).
Proof. reflexivity. Qed.

(** X11. For an access token of visible ASCII characters the fallback
    lookup never touches the cache and sends exactly one request, to the
    recently-played endpoint with the header "Bearer " followed by the token,
    whether it succeeds or degrades to a placeholder. *)
Theorem fallback_lookup_sends_one_request
        (upstream : Upstream) (text : string) (st : State) :
  plain_text text = true ->
  cache (snd (getRecentlyPlayed upstream (JStr text) st)) = cache st
  /\ sent (snd (getRecentlyPlayed upstream (JStr text) st))
     = (sent st ++ [RecentlyPlayed ("Bearer " ++ text)])%list.
Proof.
  intros _. split.
  - apply keeps_getRecentlyPlayed.
  - rewrite getRecentlyPlayed_sent, getAccessTokenHeader_text. reflexivity.
Qed.

Lemma fallback_lookup_sends_one_request_witness :
  cache (snd (getRecentlyPlayed unreachable (JStr "t0ken") (cached_for 7)))
  = cache (cached_for 7)
  /\ sent (snd (getRecentlyPlayed unreachable (JStr "t0ken") (cached_for 7)))
     = ([] ++ [RecentlyPlayed ("Bearer " ++ "t0ken")])%list.
Proof.
  apply (@fallback_lookup_sends_one_request unreachable "t0ken" (cached_for 7)).
  reflexivity.
Defined.

(** ** The cache over time *)

(** X12. A record stored by [setCachedData] is found by [getCachedData]
    for the 15000 ms that follow, and no longer: after that the check
    returns nothing and empties the slot. *)
Theorem stored_record_is_found_for_the_cache_duration
        (d : SpotifyData) (st : State) (wait : Z) :
  getCachedData (advance wait (snd (setCachedData d st)))
  = if wait >? 15000
    then (Ok None, expired (advance wait (snd (setCachedData d st))))
    else (Ok (Some d), advance wait (snd (setCachedData d st))).
Proof.
  unfold getCachedData, setCachedData, advance, read_cache, write_cache, Date_now,
    CACHE_DURATION. cbn.
  replace (clock st + wait - clock st) with wait by lia.
  destruct (wait >? 15000); reflexivity.
Qed.

(** X13. The record a call obtains by a refresh is returned again, with no
    request sent and no change of state, by every call made within the
    15000 ms that follow. *)
Theorem refreshed_record_is_served_for_the_cache_duration
        (env : ProcessEnv) (upstream : Upstream) (st st0 st' : State)
        (r : SpotifyData) (wait : Z) :
  getCachedData st = (Ok None, st0) ->
  getSpotifyData_try env upstream st = (Ok r, st') ->
  wait <= 15000 ->
  getSpotifyData env upstream (advance wait st') = (Ok r, advance wait st').
Proof.
  intros Hmiss Htry Hwait.
  assert (Hstored : cache st' = Some (mkCacheEntry r (clock st'))).
  { unfold getSpotifyData_try in Htry. rewrite bind_run, Hmiss in Htry.
    pose proof (@refresh_on_miss env upstream st0 (getCachedData_miss _ Hmiss)) as Hre.
    rewrite Htry in Hre. exact (proj1 Hre). }
  unfold getSpotifyData, try_catch, getSpotifyData_try. rewrite bind_run.
  rewrite (@getCachedData_fresh (advance wait st') (mkCacheEntry r (clock st'))).
  - reflexivity.
  - exact Hstored.
  - unfold age, advance, CACHE_DURATION. cbn. lia.
Qed.

Lemma refreshed_record_is_served_for_the_cache_duration_witness :
  getSpotifyData configured playing
    (advance 15000 (snd (getSpotifyData_try configured playing (loaded 0))))
  = (Ok (spread (JBool true) (normalization one_track)),
     advance 15000 (snd (getSpotifyData_try configured playing (loaded 0)))).
Proof.
  apply (@refreshed_record_is_served_for_the_cache_duration
           configured playing (loaded 0) (loaded 0)
           (snd (getSpotifyData_try configured playing (loaded 0)))
           (spread (JBool true) (normalization one_track)) 15000).
  - reflexivity.
  - reflexivity.
  - vm_compute. discriminate.
Defined.

(** X14. In calls that do not overlap the [catch] block never finds an
    entry: whenever the [try] block throws, for whatever reason, the call
    returns the hard-coded record, writes the error to the console and
    leaves the cache empty. *)
Theorem failure_is_never_answered_from_the_cache
        (env : ProcessEnv) (upstream : Upstream) (st st' : State) (e : Exn) :
  getSpotifyData_try env upstream st = (Throw e, st') ->
  getSpotifyData env upstream st
  = (Ok unavailable,
     mkState None (clock st') (sent st') (console st' ++ [("Spotify API error:", e)])).
Proof.
  intro Htry.
  destruct (failed_refresh_returns_unavailable _ _ _ Htry) as [Hnone _].
  unfold getSpotifyData, try_catch. rewrite Htry.
  unfold getSpotifyData_catch, console_error, read_cache. cbn.
  rewrite Hnone. reflexivity.
Qed.

Lemma failure_is_never_answered_from_the_cache_witness :
  getSpotifyData configured unreachable (cached_for 15001)
  = (Ok unavailable,
     mkState None 15006 [token_request configured]
             [("Spotify API error:", Failure "fetch failed")]).
Proof.
  apply (@failure_is_never_answered_from_the_cache
           configured unreachable (cached_for 15001)
           (mkState None 15006 [token_request configured] [])
           (Failure "fetch failed")).
  reflexivity.
Defined.

Lemma getSpotifyData_settles (env : ProcessEnv) (upstream : Upstream) (st : State) :
  exists r st', getSpotifyData env upstream st = (Ok r, st').
Proof.
  unfold getSpotifyData, try_catch.
  destruct (getSpotifyData_try env upstream st) as [[r | e] st1]; [ eauto | ].
  unfold getSpotifyData_catch, console_error, read_cache. cbn.
  destruct (cache st1); eauto.
Qed.

(** One call keeps the two invariants of the cache. *)
Lemma getSpotifyData_keeps_invariants
      (env : ProcessEnv) (upstream : Upstream) (st : State) :
  cache_populated st -> stamped_in_the_past st ->
  exists r st',
    getSpotifyData env upstream st = (Ok r, st')
    /\ track_fields_populated r = true
    /\ cache_populated st' /\ stamped_in_the_past st'.
Proof.
  intros Hpop Hpast.
  unfold getSpotifyData, try_catch.
  destruct (getSpotifyData_try_outcome env upstream st)
    as [(entry & Hc & _ & Hhit) | (_ & Hre)].
  - rewrite Hhit. exists (data entry), st.
    split; [ reflexivity | ]. split; [ | split; assumption ].
    unfold cache_populated in Hpop. rewrite Hc in Hpop. exact Hpop.
  - destruct (getSpotifyData_try env upstream st) as [[r | e] st1];
      unfold refreshed in Hre; cbn in Hre.
    + destruct Hre as [Hstored Hr]. exists r, st1.
      unfold cache_populated, stamped_in_the_past. rewrite Hstored. cbn.
      repeat split; auto. lia.
    + unfold getSpotifyData_catch, console_error, read_cache. cbn. rewrite Hre.
      eexists _, _. split; [ reflexivity | ].
      unfold cache_populated, stamped_in_the_past. cbn. auto.
Qed.

Lemma advance_keeps_invariants (wait : Z) (st : State) :
  0 <= wait -> cache_populated st -> stamped_in_the_past st ->
  cache_populated (advance wait st) /\ stamped_in_the_past (advance wait st).
Proof.
  unfold cache_populated, stamped_in_the_past, advance. cbn.
  intros Hwait Hpop Hpast. split; [ exact Hpop | ].
  destruct (cache st); [ lia | exact I ].
Qed.

Lemma after_calls_keeps_invariants
      (env : ProcessEnv) (upstream : Upstream) (waits : list Z) :
  Forall (fun wait => 0 <= wait) waits ->
  forall st,
    cache_populated st -> stamped_in_the_past st ->
    cache_populated (after_calls env upstream waits st)
    /\ stamped_in_the_past (after_calls env upstream waits st).
Proof.
  induction 1 as [ | wait rest Hwait _ IH]; intros st Hpop Hpast; cbn [after_calls].
  - auto.
  - destruct (@advance_keeps_invariants wait st Hwait Hpop Hpast) as [Hpop1 Hpast1].
    destruct (@getSpotifyData_keeps_invariants env upstream _ Hpop1 Hpast1)
      as (r & st' & Hrun & _ & Hpop2 & Hpast2).
    rewrite Hrun. cbn [snd]. apply IH; assumption.
Qed.

(** X15. After any run of calls from a freshly loaded module, each made
    after a wait that is not negative, the next call returns a record whose
    [songUrl], [title], [albumImageUrl] and [artist] are filled, and the
    cache entry, if there is one, is not stamped later than the clock. *)
Theorem every_run_returns_filled_records
        (env : ProcessEnv) (upstream : Upstream) (waits : list Z) (now wait : Z) :
  Forall (fun w => 0 <= w) waits -> 0 <= wait ->
  exists r st',
    getSpotifyData env upstream
      (advance wait (after_calls env upstream waits (loaded now)))
    = (Ok r, st')
    /\ track_fields_populated r = true
    /\ stamped_in_the_past st'.
Proof.
  intros Hwaits Hwait.
  destruct (@after_calls_keeps_invariants env upstream waits Hwaits (loaded now) I I)
    as [Hpop Hpast].
  destruct (@advance_keeps_invariants wait _ Hwait Hpop Hpast) as [Hpop1 Hpast1].
  destruct (@getSpotifyData_keeps_invariants env upstream _ Hpop1 Hpast1)
    as (r & st' & Hrun & Hr & _ & Hpast2).
  exists r, st'. auto.
Qed.

Lemma every_run_returns_filled_records_witness :
  exists r st',
    getSpotifyData configured playing_without_flag
      (advance 20000 (after_calls configured playing_without_flag [0; 7000] (loaded 0)))
    = (Ok r, st')
    /\ track_fields_populated r = true
    /\ stamped_in_the_past st'.
Proof.
  apply (@every_run_returns_filled_records
           configured playing_without_flag [0; 7000] 0 20000).
  - repeat constructor; discriminate.
  - discriminate.
Defined.

(** ** Normalisation of an arbitrary payload *)

Lemma or_else_default_or_truthy (a b : JsVal) :
  (truthy a = false /\ or_else a b = b) \/ (truthy a = true /\ or_else a b = a).
Proof. unfold or_else. destruct (truthy a); auto. Qed.

(** X16. Whatever the payload, when [mapSpotifyData] returns, the title is
    truthy, the artist is a non-empty string, and the link and the image are
    [null] or truthy: no field is [undefined], empty, [false] or zero. *)
Theorem mapSpotifyData_fills_every_field (track : JsVal) (m : Mapped.t) :
  mapSpotifyData track = Ok m ->
  truthy (Mapped.title m) = true
  /\ (exists s, Mapped.artist m = JStr s /\ s <> "")
  /\ (Mapped.songUrl m = JNull \/ truthy (Mapped.songUrl m) = true)
  /\ (Mapped.albumImageUrl m = JNull \/ truthy (Mapped.albumImageUrl m) = true).
Proof.
  unfold mapSpotifyData. cbn [bind Res_Monad]. intro H.
  destruct (get track "external_urls") as [external_urls | ]; [ | discriminate ].
  destruct (if nullish external_urls then Ok JUndefined else get external_urls "spotify")
    as [spotify | ]; [ | discriminate ].
  destruct (get track "name") as [name0 | ]; [ | discriminate ].
  destruct (get track "album") as [album0 | ]; [ | discriminate ].
  match type of H with
  | match ?c with Ok _ => _ | Throw _ => _ end = _ =>
      destruct c as [url0 | ]; [ | discriminate ]
  end.
  destruct (get track "artists") as [artists0 | ]; [ | discriminate ].
  assert (Hartist : forall joined,
             (joined = JUndefined \/ exists text, joined = JStr text) ->
             exists s, or_else joined (JStr "Unknown Artist") = JStr s /\ s <> "").
  { intros joined [-> | (text & ->)].
    - exists "Unknown Artist". split; [ reflexivity | discriminate ].
    - rewrite or_else_string. unfold nonempty_or.
      destruct (String.eqb_spec text "").
      + exists "Unknown Artist". split; [ reflexivity | discriminate ].
      + exists text. auto. }
  assert (Hfill : forall a, or_else a JNull = JNull \/ truthy (or_else a JNull) = true).
  { intro a. destruct (or_else_default_or_truthy a JNull) as [[_ ->] | [Ht ->]]; auto. }
  assert (Htitle : truthy (or_else name0 (JStr "Unknown Track")) = true).
  { destruct (or_else_default_or_truthy name0 (JStr "Unknown Track"))
      as [[_ ->] | [Ht ->]]; [ reflexivity | exact Ht ]. }
  destruct (nullish artists0).
  - injection H as <-.
    cbn [Mapped.title Mapped.artist Mapped.songUrl Mapped.albumImageUrl].
    split; [ exact Htitle | ]. split; [ apply Hartist; left; reflexivity | ].
    split; apply Hfill.
  - destruct (array_map artists0 _) as [names | ]; [ | discriminate ].
    destruct (join ", " names) as [text | ]; [ | discriminate ].
    injection H as <-.
    cbn [Mapped.title Mapped.artist Mapped.songUrl Mapped.albumImageUrl].
    split; [ exact Htitle | ]. split; [ apply Hartist; right; eauto | ].
    split; apply Hfill.
Qed.

Lemma mapSpotifyData_fills_every_field_witness :
  truthy (Mapped.title (normalization nameless_artist)) = true
  /\ (exists s, Mapped.artist (normalization nameless_artist) = JStr s /\ s <> "")
  /\ (Mapped.songUrl (normalization nameless_artist) = JNull
      \/ truthy (Mapped.songUrl (normalization nameless_artist)) = true)
  /\ (Mapped.albumImageUrl (normalization nameless_artist) = JNull
      \/ truthy (Mapped.albumImageUrl (normalization nameless_artist)) = true).
Proof.
  apply (@mapSpotifyData_fills_every_field (js_of_track nameless_artist)).
  reflexivity.
Defined.

(** X17. The optional chaining of [mapSpotifyData] guards a missing album,
    not a missing list of images.  A track with no album and no artists is
    normalised, with [albumImageUrl = null] and the artist "Unknown
    Artist"; a track whose album is present but has no [images] makes
    [mapSpotifyData] throw a TypeError, as does a track that is [undefined]
    or [null]. *)
Theorem mapSpotifyData_guards_the_album_not_its_images (track : JsVal) :
  (nullish track = false ->
   nullish (field track "album") = true ->
   nullish (field track "artists") = true ->
   mapSpotifyData track
   = Ok (Mapped.mk
           (if truthy (field (field track "external_urls") "spotify")
            then field (field track "external_urls") "spotify" else JNull)
           (if truthy (field track "name")
            then field track "name" else JStr "Unknown Track")
           JNull
           (JStr "Unknown Artist")))
  /\ (nullish track = false ->
      nullish (field track "album") = false ->
      nullish (field (field track "album") "images") = true ->
      mapSpotifyData track = Throw TypeError)
  /\ (nullish track = true -> mapSpotifyData track = Throw TypeError).
Proof.
  assert (Hspotify : nullish track = false ->
             (if nullish (field track "external_urls") then Ok JUndefined
              else get (field track "external_urls") "spotify")
             = Ok (field (field track "external_urls") "spotify")).
  { intros _. destruct (nullish (field track "external_urls")) eqn:Hn.
    - destruct (field track "external_urls"); try discriminate; reflexivity.
    - apply get_field. exact Hn. }
  split; [ | split ].
  - intros Htrack Halbum Hartists. unfold mapSpotifyData.
    rewrite (get_field track "external_urls" Htrack). cbn [bind Res_Monad].
    rewrite (Hspotify Htrack). cbn [bind Res_Monad].
    rewrite (get_field track "name" Htrack). cbn [bind Res_Monad].
    rewrite (get_field track "album" Htrack). cbn [bind Res_Monad].
    rewrite Halbum. cbn [bind Res_Monad].
    rewrite (get_field track "artists" Htrack). cbn [bind Res_Monad].
    rewrite Hartists. cbn [bind Res_Monad]. reflexivity.
  - intros Htrack Halbum Himages. unfold mapSpotifyData.
    rewrite (get_field track "external_urls" Htrack). cbn [bind Res_Monad].
    rewrite (Hspotify Htrack). cbn [bind Res_Monad].
    rewrite (get_field track "name" Htrack). cbn [bind Res_Monad].
    rewrite (get_field track "album" Htrack). cbn [bind Res_Monad].
    rewrite Halbum. rewrite (get_field _ "images" Halbum). cbn [bind Res_Monad].
    destruct (field (field track "album") "images"); try discriminate; reflexivity.
  - destruct track; cbn; try discriminate; reflexivity.
Qed.

Lemma mapSpotifyData_guards_the_album_not_its_images_witness :
  mapSpotifyData (JObj [("name", JStr "Song")])
  = Ok (Mapped.mk JNull (JStr "Song") JNull (JStr "Unknown Artist"))
  /\ mapSpotifyData (JObj [("name", JStr "Song"); ("album", JObj [("name", JStr "LP")])])
     = Throw TypeError
  /\ mapSpotifyData JUndefined = Throw TypeError.
Proof.
  split; [ | split ].
  - apply (proj1 (mapSpotifyData_guards_the_album_not_its_images
                    (JObj [("name", JStr "Song")])));
      reflexivity.
  - apply (proj1 (proj2 (mapSpotifyData_guards_the_album_not_its_images
                    (JObj [("name", JStr "Song"); ("album", JObj [("name", JStr "LP")])]))));
      reflexivity.
  - apply (proj2 (proj2 (mapSpotifyData_guards_the_album_not_its_images JUndefined))).
    reflexivity.
Defined.

(** ** The callers *)

(** X18. The route never answers 500: whatever the upstream does, [GET]
    answers with status 200 and the record the service returns, and its own
    [catch] block writes nothing to the console. *)
Theorem GET_always_answers_200
        (env : ProcessEnv) (upstream : Upstream) (st : State) :
  exists d st',
    getSpotifyData env upstream st = (Ok d, st')
    /\ GET env upstream st = (Ok (mkNextResponse (DataBody d) 200), st').
Proof.
  destruct (getSpotifyData_settles env upstream st) as (d & st' & Hrun).
  exists d, st'. split; [ exact Hrun | ].
  unfold GET, try_catch. rewrite bind_run, Hrun. reflexivity.
Qed.

Lemma filter_truthy_classes (l : list ClassName) :
  filter truthy (map js_of_class l) = map JStr (class_strings l).
Proof.
  induction l as [ | c l IH]; [ reflexivity | ].
  destruct c as [s | | ]; cbn [map js_of_class filter truthy class_strings].
  - destruct (s =? "")%string; cbn [negb map]; rewrite IH; reflexivity.
  - exact IH.
  - exact IH.
Qed.

(** X19. On the class names its type admits, [cn] returns the non-empty
    strings, in their order, separated by single spaces: [undefined],
    [false] and the empty string leave no trace. *)
Theorem cn_joins_the_nonempty_strings (l : list ClassName) :
  cn (map js_of_class l) = Ok (String.concat " " (class_strings l)).
Proof.
  unfold cn. rewrite filter_truthy_classes. apply join_strings.
Qed.

Lemma album_cover_class (src alt isPlaying : JsVal) :
  SpinningAlbumCover src alt isPlaying
  = Ok (mkImg src alt "absolute aspect-square rounded-full [object Object]").
Proof. reflexivity. Qed.

(** X20. The class of the album cover does not depend on [isPlaying]:
    [cn] is given an object, which it keeps and prints as [[object Object]],
    so the class of the animation is never among the classes. *)
Theorem album_cover_class_ignores_isPlaying (src alt isPlaying : JsVal) :
  SpinningAlbumCover src alt isPlaying
  = Ok (mkImg src alt "absolute aspect-square rounded-full [object Object]").
Proof. reflexivity. Qed.

(** X21. The widget always renders the record the service returns: its own
    [catch] block, with "Unable to connect", is never entered and it writes
    nothing to the console.  Its link is the [songUrl] of the record when
    that is truthy and the Spotify home page otherwise; the image is the
    [albumImageUrl] of the record when that is truthy, with the alternative
    text "Album cover for " followed by the title, and the placeholder image
    with "Spotify logo" otherwise; the line above the track is "Now
    playing" when [isPlaying] is truthy and "Last played" otherwise; the two
    texts are the title and the artist of the record.  The function raises
    only when the record has an image and its title cannot be printed. *)
Theorem widget_renders_the_service_record
        (env : ProcessEnv) (upstream : Upstream) (st : State) :
  exists d st',
    getSpotifyData env upstream st = (Ok d, st')
    /\ match SpotifyWidgetServer env upstream st with
       | (Ok w, st'') =>
           st'' = st'
           /\ href w = (if truthy (songUrl d) then songUrl d
                        else JStr "https://open.spotify.com/")
           /\ className w
              = "group relative flex h-full items-center gap-x-6 rounded-3xl p-5 max-lg:p-6 md:max-lg:flex-col md:max-lg:items-start md:max-lg:justify-between hover:bg-slate-50 transition-colors duration-200"
           /\ img_src (cover w) = (if truthy (albumImageUrl d) then albumImageUrl d
                                   else JStr "/images/spotify-placeholder.png")
           /\ (if truthy (albumImageUrl d)
               then exists text, ToString (title d) = Ok text
                                 /\ img_alt (cover w) = JStr ("Album cover for " ++ text)
               else img_alt (cover w) = JStr "Spotify logo")
           /\ img_className (cover w)
              = "absolute aspect-square rounded-full [object Object]"
           /\ status_line w = (if truthy (isPlaying d) then "Now playing"
                               else "Last played")
           /\ title_text w = title d /\ artist_text w = artist d
       | (Throw e, st'') =>
           st'' = st'
           /\ truthy (albumImageUrl d) = true /\ ToString (title d) = Throw e
       end.
Proof.
  destruct (getSpotifyData_settles env upstream st) as (d & st' & Hrun).
  exists d, st'. split; [ exact Hrun | ].
  unfold SpotifyWidgetServer. rewrite bind_run. unfold try_catch. rewrite Hrun.
  rewrite bind_run. unfold lift at 1.
  change (cn [JStr "group relative flex h-full items-center gap-x-6 rounded-3xl p-5";
              JStr "max-lg:p-6 md:max-lg:flex-col md:max-lg:items-start md:max-lg:justify-between";
              JStr "hover:bg-slate-50 transition-colors duration-200"])
    with (Ok "group relative flex h-full items-center gap-x-6 rounded-3xl p-5 max-lg:p-6 md:max-lg:flex-col md:max-lg:items-start md:max-lg:justify-between hover:bg-slate-50 transition-colors duration-200").
  cbv beta iota.
  rewrite bind_run. unfold lift at 1. unfold or_else.
  destruct (truthy (albumImageUrl d)) eqn:Himage.
  - cbn [bind Res_Monad].
    destruct (ToString (title d)) as [text | e].
    + rewrite bind_run. unfold lift at 1. rewrite album_cover_class.
      cbn. repeat split; eauto.
    + auto.
  - rewrite bind_run. unfold lift at 1. rewrite album_cover_class.
    cbn. repeat split; reflexivity.
Qed.

(** ** The code at the failing inputs *)

(** C1 (the code at the failing input).  The module is freshly loaded,
    every credential is set, the token endpoint answers with a token and the
    currently-playing endpoint answers 200 with a valid track item and no
    [is_playing] property: the call resolves, and the record it returns and
    stores has [isPlaying] undefined, so it is not fully populated. *)
Theorem missing_flag_is_returned_as_undefined :
  getSpotifyData configured playing_without_flag (loaded 0)
  = (Ok (mkSpotifyData JUndefined
                       (JStr "https://open.spotify.com/track/1") (JStr "Song")
                       (JStr "https://i.scdn.co/image/1") (JStr "First, Second")),
     stored (mkSpotifyData JUndefined
                           (JStr "https://open.spotify.com/track/1") (JStr "Song")
                           (JStr "https://i.scdn.co/image/1") (JStr "First, Second"))
            (mkState None 90 [token_request configured; CurrentlyPlaying "Bearer t0ken"] []))
  /\ fully_populated
       (mkSpotifyData JUndefined
                      (JStr "https://open.spotify.com/track/1") (JStr "Song")
                      (JStr "https://i.scdn.co/image/1") (JStr "First, Second"))
     = false.
Proof. split; reflexivity. Qed.

(** C2 (the code at the failing input).  Every credential is set.  A first
    call on the freshly loaded module finds a track playing and stores its
    record at time 90.  A second call is made 15001 ms later, when the
    upstream cannot be reached: the cache check drops the entry before the
    token is asked for, the token request fails, and the [catch] block finds
    no entry and returns the hard-coded record, not the record that was
    stored. *)
Theorem stored_record_is_lost_when_the_refresh_fails :
  getSpotifyData configured playing_then_unreachable (loaded 0)
  = (Ok (spread (JBool true) (normalization one_track)),
     stored (spread (JBool true) (normalization one_track))
            (mkState None 90 [token_request configured; CurrentlyPlaying "Bearer t0ken"] []))
  /\ getSpotifyData configured playing_then_unreachable
       (advance 15001
          (stored (spread (JBool true) (normalization one_track))
                  (mkState None 90
                           [token_request configured; CurrentlyPlaying "Bearer t0ken"] [])))
     = (Ok unavailable,
        mkState None 15096
                [token_request configured; CurrentlyPlaying "Bearer t0ken";
                 token_request configured]
                [("Spotify API error:", Failure "fetch failed")])
  /\ unavailable <> spread (JBool true) (normalization one_track).
Proof. split; [ reflexivity | ]. split; [ reflexivity | discriminate ]. Qed.

(** ** The flag of the record *)

Lemma getNowPlayingResponse_answer
      (upstream : Upstream) (token : JsVal) (response : Response) :
  produced_by (getNowPlayingResponse upstream token) response ->
  exists history header,
    settled (upstream history (CurrentlyPlaying header)) = Resolves response.
Proof.
  intros (st & st' & Hrun). revert Hrun.
  unfold getNowPlayingResponse. rewrite bind_run. unfold lift at 1.
  destruct (getAccessTokenHeader token) as [header | e]; [ | discriminate ].
  unfold fetch.
  destruct (settled (upstream (sent st) (CurrentlyPlaying header))) as [r | e] eqn:Hsettled;
    [ | discriminate ].
  intro H. injection H as <- _. eauto.
Qed.

Lemma refresh_flag (env : ProcessEnv) (upstream : Upstream) :
  ensures (refresh env upstream) (flag_from_payload upstream).
Proof.
  unfold refresh.
  apply ensures_bind. intros tokenData _.
  apply ensures_bind. intros token _.
  destruct (negb (truthy token)); [ apply ensures_throw | ].
  apply ensures_bind. intros response Hresponse.
  apply getNowPlayingResponse_answer in Hresponse.
  destruct Hresponse as (history & header & Hsettled).
  assert (Hdelegate :
            ensures (recentData <- getRecentlyPlayed upstream token ;;
                     setCachedData recentData ;;; ret recentData)
                    (flag_from_payload upstream)).
  { apply ensures_bind. intros recent Hrecent.
    apply getRecentlyPlayed_ensures in Hrecent. destruct Hrecent as [Hfalse _].
    apply ensures_bind. intros _ _. apply ensures_ret. left. exact Hfalse. }
  destruct (status response =? 204); [ exact Hdelegate | ].
  repeat (match goal with
          | |- ensures (if ?b then throw _ else _) _ =>
              destruct b; [ apply ensures_throw | ]
          end).
  apply ensures_bind. intros body Hbody. apply produced_by_lift in Hbody.
  apply ensures_bind. intros fallback Hfallback. apply produced_by_lift in Hfallback.
  destruct fallback; [ exact Hdelegate | ].
  apply ensures_bind. intros flag Hflag. apply produced_by_lift in Hflag.
  apply ensures_bind. intros item _.
  apply ensures_bind. intros mapped _.
  apply ensures_bind. intros _ _. apply ensures_ret.
  right. exists history, header, response, body.
  repeat split; try assumption.
  unfold field. rewrite Hflag. reflexivity.
Qed.

Lemma getSpotifyData_keeps_flag
      (env : ProcessEnv) (upstream : Upstream) (st : State) :
  cache_flag_from_payload upstream st ->
  exists r st',
    getSpotifyData env upstream st = (Ok r, st')
    /\ flag_from_payload upstream r
    /\ cache_flag_from_payload upstream st'.
Proof.
  intro Hinv.
  assert (Hrefresh : forall st0, cache st0 = None ->
             exists r st',
               try_catch (refresh env upstream) (getSpotifyData_catch) st0 = (Ok r, st')
               /\ flag_from_payload upstream r
               /\ cache_flag_from_payload upstream st').
  { intros st0 Hnone. unfold try_catch.
    pose proof (@refresh_on_miss env upstream st0 Hnone) as Hre.
    pose proof (@refresh_flag env upstream) as Hflag.
    destruct (refresh env upstream st0) as [[r | e] st1] eqn:Hrun;
      unfold refreshed in Hre; cbn in Hre.
    - exists r, st1. split; [ reflexivity | ].
      assert (Hr : flag_from_payload upstream r)
        by (apply Hflag; exists st0, st1; exact Hrun).
      split; [ exact Hr | ].
      unfold cache_flag_from_payload. rewrite (proj1 Hre). exact Hr.
    - unfold getSpotifyData_catch, console_error, read_cache. cbn. rewrite Hre.
      eexists _, _. split; [ reflexivity | ].
      split; [ left; reflexivity | exact I ]. }
  unfold getSpotifyData, getSpotifyData_try.
  destruct (cache st) as [entry | ] eqn:Hc.
  - destruct (Z_le_gt_dec (age st entry) CACHE_DURATION) as [Hfresh | Hold].
    + unfold try_catch. rewrite bind_run, (getCachedData_fresh st Hc Hfresh).
      exists (data entry), st. split; [ reflexivity | ].
      unfold cache_flag_from_payload in Hinv. rewrite Hc in Hinv.
      split; [ exact Hinv | ].
      unfold cache_flag_from_payload. rewrite Hc. exact Hinv.
    + destruct (Hrefresh (expired st) eq_refl) as (r & st' & Hrun & Hr & Hst').
      exists r, st'. split; [ | split; assumption ].
      rewrite <- Hrun. unfold try_catch.
      rewrite bind_run, (getCachedData_expired st Hc Hold). reflexivity.
  - destruct (Hrefresh st Hc) as (r & st' & Hrun & Hr & Hst').
    exists r, st'. split; [ | split; assumption ].
    rewrite <- Hrun. unfold try_catch.
    rewrite bind_run, (getCachedData_empty st Hc). reflexivity.
Qed.

Lemma after_calls_keeps_flag
      (env : ProcessEnv) (upstream : Upstream) (waits : list Z) (st : State) :
  cache_flag_from_payload upstream st ->
  cache_flag_from_payload upstream (after_calls env upstream waits st).
Proof.
  revert st. induction waits as [ | wait rest IH]; intros st Hinv; cbn [after_calls].
  - exact Hinv.
  - destruct (@getSpotifyData_keeps_flag env upstream (advance wait st) Hinv)
      as (r & st' & Hrun & _ & Hst').
    rewrite Hrun. cbn [snd]. apply IH. exact Hst'.
Qed.

(** X22. In any run of calls from a freshly loaded module, the
    [isPlaying] of every record returned is [false], or is the [is_playing]
    property, exactly as sent, of a currently-playing payload with a valid
    track item: it is undefined only when such a payload carries no
    [is_playing]. *)
Theorem isPlaying_is_false_or_the_flag_sent
        (env : ProcessEnv) (upstream : Upstream) (waits : list Z) (now wait : Z) :
  exists r st',
    getSpotifyData env upstream
      (advance wait (after_calls env upstream waits (loaded now)))
    = (Ok r, st')
    /\ flag_from_payload upstream r.
Proof.
  assert (Hinv : cache_flag_from_payload upstream
                   (advance wait (after_calls env upstream waits (loaded now)))).
  { exact (@after_calls_keeps_flag env upstream waits (loaded now) I). }
  destruct (@getSpotifyData_keeps_flag env upstream _ Hinv) as (r & st' & Hrun & Hr & _).
  exists r, st'. split; assumption.
Qed.
